(** * Icon effect pipeline ([src/assets/icons/process_effects.py])

    A shallow embedding of the icon post-processing script and the proofs of
    its specification.  Rasters are kept the way the script sees them: a
    Pillow image or a two-dimensional numpy array is a size together with
    its rows, pixels are RGBA tuples of integers, and the [for y ... for x]
    loops of the script are folds over [range] that update one cell at a
    time. *)

From Stdlib Require Import ZArith QArith Lia Bool Ascii String Sorted.
From stdpp Require Import base tactics option list numbers strings gmap.

Local Open Scope Z_scope.

(** * The script *)

(** ** Rasters *)

(** An RGBA tuple [(r, g, b, a)]. *)
Record pixel := RGBA { red : Z; green : Z; blue : Z; alpha : Z }.

(** A channel of an 8-bit image. *)
Definition byte_range (c : Z) : Prop := 0 <= c <= 255.

Definition valid_pixel (p : pixel) : Prop :=
  byte_range (red p) /\ byte_range (green p) /\ byte_range (blue p)
  /\ byte_range (alpha p).

(** A raster: [xsize] columns, [ysize] rows, stored row by row.  With
    [A := pixel] it is a Pillow image of mode RGBA, with [A := Z] an image
    of mode L or a two-dimensional [uint8] numpy array of shape
    [(ysize, xsize)]. *)
Record raster (A : Type) := Raster {
  xsize : nat;
  ysize : nat;
  cells : list (list A)
}.
Arguments Raster {A} _ _ _.
Arguments xsize {A} _.
Arguments ysize {A} _.
Arguments cells {A} _.

Definition image := raster pixel.
Definition band := raster Z.

(** Rows of a two-dimensional array, all of the same length. *)
Definition shaped {A} (h w : nat) (a : list (list A)) : Prop :=
  length a = h /\ Forall (fun row => length row = w) a.

Definition wf_raster {A} (g : raster A) : Prop :=
  shaped (ysize g) (xsize g) (cells g).

Definition valid_image (img : image) : Prop :=
  wf_raster img /\ Forall (Forall valid_pixel) (cells img).

(** [a[y][x]] and [a[y][x] = v] on the rows of an array. *)
Definition get2 {A} (a : list (list A)) (y x : nat) : option A :=
  match a !! y with
  | Some row => row !! x
  | None => None
  end.

Definition set2 {A} (a : list (list A)) (y x : nat) (v : A) : list (list A) :=
  match a !! y with
  | Some row => <[y := <[x := v]> row]> a
  | None => a
  end.

(** Pillow's pixel access [pixels[x, y]] takes the column first. *)
Definition getpixel {A} (g : raster A) (x y : nat) : option A :=
  get2 (cells g) y x.

Definition putpixel {A} (g : raster A) (x y : nat) (v : A) : raster A :=
  Raster (xsize g) (ysize g) (set2 (cells g) y x v).

(** numpy's item assignment [a[y, x] = v] takes the row first. *)
Definition setitem {A} (a : raster A) (y x : nat) (v : A) : raster A :=
  Raster (xsize a) (ysize a) (set2 (cells a) y x v).

(** [Image.new(mode, (w, h), v)] and [np.zeros((h, w))]. *)
Definition raster_new {A} (w h : nat) (v : A) : raster A :=
  Raster w h (replicate h (replicate w v)).

(** A point operation ([Image.point], [np.where] on one array). *)
Definition raster_map {A B} (f : A -> B) (g : raster A) : raster B :=
  Raster (xsize g) (ysize g) ((fun row : list A => f <$> row) <$> cells g).

(** A point operation on two rasters of the same size. *)
Definition raster_zip {A B C} (f : A -> B -> C) (g1 : raster A) (g2 : raster B)
  : raster C :=
  Raster (xsize g1) (ysize g1) (zip_with (zip_with f) (cells g1) (cells g2)).

(** [for i in range(n): s = body i s]. *)
Definition for_range {S : Type} (n : nat) (body : nat -> S -> S) (s : S) : S :=
  foldl (fun s i => body i s) s (seq 0 n).

(** ** [remove_partial_transparency] *)

(** The body of the double loop: read [pixels[x, y]], overwrite it when its
    alpha passes the test.  Reading outside the image raises in Pillow; the
    loops stay inside, and the model leaves the image alone there. *)
Definition rpt_step (threshold : Z) (x y : nat) (img : image) : image :=
  match getpixel img x y with
  | Some (RGBA r g b a) =>
      if (a >=? threshold) && (a >? 0)
      then putpixel img x y (RGBA a a a 255)
      else img
  | None => img
  end.

(** The image is updated in place and returned. *)
Definition remove_partial_transparency (img : image) (threshold : Z) : image :=
  let width := xsize img in
  let height := ysize img in
  for_range height (fun y img =>
    for_range width (fun x img => rpt_step threshold x y img) img) img.

(** ** [create_circular_kernel] *)

(** [math.sqrt(n) <= radius] for integers [n >= 0] and [radius].  The script
    takes the square root in double precision; the root is correctly rounded
    and [radius] is a double, so the comparison agrees with the exact one,
    [0 <= radius] and [n <= radius * radius], for every kernel that fits in
    memory (up to a radius of 2^26). *)
Definition dist_le (n radius : Z) : bool :=
  (0 <=? radius) && (n <=? radius * radius).

Definition kernel_cell (radius : Z) (x y : nat) : bool :=
  let center := radius in
  dist_le ((Z.of_nat x - center) ^ 2 + (Z.of_nat y - center) ^ 2) radius.

(** [np.zeros((size, size))] filled in by the double loop.  A negative
    [size] makes [np.zeros] raise; the only caller passes [radius > 0]. *)
Definition create_circular_kernel (radius : Z) : band :=
  let size := Z.to_nat (radius * 2 + 1) in
  let kernel := raster_new size size 0 in
  for_range size (fun y kernel =>
    for_range size (fun x kernel =>
      if kernel_cell radius x y
      then setitem kernel y x 1
      else kernel) kernel) kernel.

(** ** [dilate_with_circular_kernel] *)

(** [np.pad(a, pad, mode='constant', constant_values=0)]. *)
Definition np_pad (a : band) (pad : nat) : band :=
  let w := (xsize a + 2 * pad)%nat in
  let blank := replicate pad (replicate w 0) in
  Raster w (ysize a + 2 * pad)%nat
    (blank
     ++ ((fun row : list Z => replicate pad 0 ++ row ++ replicate pad 0)
           <$> cells a)
     ++ blank).

(** The slice [a[y0:y1, x0:x1]] (indices past the end are cut off). *)
Definition slice2 {A} (a : list (list A)) (y0 y1 x0 x1 : nat) : list (list A) :=
  (fun row : list A => take (x1 - x0)%nat (drop x0 row))
    <$> take (y1 - y0)%nat (drop y0 a).

(** [np.any((region > 0) & (kernel > 0))] on two arrays of one shape. *)
Definition np_any_overlap (region kernel : list (list Z)) : bool :=
  existsb (existsb id)
    (zip_with (zip_with andb)
       ((fun row : list Z => (fun v => v >? 0) <$> row) <$> region)
       ((fun row : list Z => (fun v => v >? 0) <$> row) <$> kernel)).

Definition dilate_with_circular_kernel (mask : band) (radius : Z) : band :=
  if radius <=? 0 then mask
  else
    let mask_array := mask in
    let kernel := create_circular_kernel radius in
    let kernel_size := ysize kernel in
    let pad := Z.to_nat radius in
    let padded := np_pad mask_array pad in
    let output := raster_new (xsize mask_array) (ysize mask_array) 0 in
    let height := ysize mask_array in
    let width := xsize mask_array in
    for_range height (fun y output =>
      for_range width (fun x output =>
        let region :=
          slice2 (cells padded) y (y + kernel_size) x (x + kernel_size) in
        if np_any_overlap region (cells kernel)
        then setitem output y x 255
        else output) output) output.

(** ** Exceptions *)

(** The exceptions a run can meet: the [ValueError]s of the script and of
    [int()], the [OverflowError] of [Image.new], and the failures of
    [Image.open] and of [img.save]. *)
Inductive exn :=
  | InvalidOutlineFormat
  | InvalidHexColor
  | InvalidIntLiteral
  | IntTooManyDigits
  | InvalidRgbColor
  | UnknownColorFormat
  | ColorOverflow
  | PaddingTooLarge
  | CannotOpen
  | CannotSave.

Inductive result (A : Type) :=
  | Ok (a : A)
  | Raise (e : exn).
Arguments Ok {A} _.
Arguments Raise {A} _.

#[global] Instance result_bind : MBind result := fun A B k r =>
  match r with
  | Ok a => k a
  | Raise e => Raise e
  end.

(** The error kinds of the specification, and [Unclassified] for an
    exception it names no kind for. *)
Inductive error_kind :=
  InvalidOutlineSpec | InvalidPadding | IOError | Unclassified.

Definition kind_of (e : exn) : error_kind :=
  match e with
  | InvalidOutlineFormat | InvalidHexColor | InvalidIntLiteral
  | IntTooManyDigits | InvalidRgbColor | UnknownColorFormat =>
      InvalidOutlineSpec
  | ColorOverflow => Unclassified
  | PaddingTooLarge => InvalidPadding
  | CannotOpen | CannotSave => IOError
  end.

(** ** [add_outline] *)

(** Pillow's rounded division by 255 on unsigned integers. *)
Definition SHIFTFORDIV255 (a : Z) : Z :=
  Z.shiftr (Z.shiftr a 8 + a) 8.

Definition DIV255 (a : Z) : Z := SHIFTFORDIV255 (a + 128).

(** One channel of a paste through an 8-bit matte. *)
Definition BLEND (mask in1 in2 : Z) : Z :=
  DIV255 (in1 * (255 - mask) + in2 * mask).

(** [dst.paste(src, mask=mask)] for images of one size: every channel of the
    destination is blended towards the source by the matte. *)
Definition paste_pixel (out inp : pixel) (a : Z) : pixel :=
  RGBA (BLEND a (red out) (red inp)) (BLEND a (green out) (green inp))
       (BLEND a (blue out) (blue inp)) (BLEND a (alpha out) (alpha inp)).

Definition paste_mask (dst src : image) (mask : band) : image :=
  raster_zip (fun '(out, inp) a => paste_pixel out inp a)
    (raster_zip pair dst src) mask.

Definition PRECISION_BITS : Z := 7.

(** One pixel of [Image.alpha_composite(dst, src)], in Pillow's fixed-point
    arithmetic. *)
Definition composite_pixel (dst src : pixel) : pixel :=
  if alpha src =? 0 then dst
  else
    let blend := alpha dst * (255 - alpha src) in
    let outa255 := alpha src * 255 + blend in
    let coef1 := alpha src * 255 * 255 * Z.shiftl 1 PRECISION_BITS / outa255 in
    let coef2 := 255 * Z.shiftl 1 PRECISION_BITS - coef1 in
    let tmpr := red src * coef1 + red dst * coef2 in
    let tmpg := green src * coef1 + green dst * coef2 in
    let tmpb := blue src * coef1 + blue dst * coef2 in
    RGBA
      (Z.shiftr (SHIFTFORDIV255 (tmpr + Z.shiftl 128 PRECISION_BITS)) PRECISION_BITS)
      (Z.shiftr (SHIFTFORDIV255 (tmpg + Z.shiftl 128 PRECISION_BITS)) PRECISION_BITS)
      (Z.shiftr (SHIFTFORDIV255 (tmpb + Z.shiftl 128 PRECISION_BITS)) PRECISION_BITS)
      (SHIFTFORDIV255 (outa255 + 128)).

Definition alpha_composite (dst src : image) : image :=
  raster_zip composite_pixel dst src.

Definition CLIP8 (v : Z) : Z := Z.max 0 (Z.min 255 v).

(** The ranges of the C types [long long] and [int]. *)
Definition c_long_long (v : Z) : bool := (- 2 ^ 63 <=? v) && (v <? 2 ^ 63).

Definition c_int (v : Z) : bool := (- 2 ^ 31 <=? v) && (v <? 2 ^ 31).

(** A colour tuple handed to [Image.new] for an RGBA image.  Pillow
    converts the first component to a [long long] and the others to an
    [int], which raises [OverflowError] for a component outside the range
    of its type, and clips each of them to a byte. *)
Definition ink (color : pixel) : result pixel :=
  if c_long_long (red color) && c_int (green color) && c_int (blue color)
     && c_int (alpha color)
  then Ok (RGBA (CLIP8 (red color)) (CLIP8 (green color))
             (CLIP8 (blue color)) (CLIP8 (alpha color)))
  else Raise ColorOverflow.

Definition transparent : pixel := RGBA 0 0 0 0.

Definition add_outline (img : image) (width_px : Z) (color : pixel)
  : result image :=
  (* alpha channel as mask *)
  let alpha_band := raster_map alpha img in
  let binary_mask := raster_map (fun x => if x >? 0 then 255 else 0) alpha_band in
  let dilated := dilate_with_circular_kernel binary_mask width_px in
  (* outline = dilated AND NOT original *)
  let outline_array :=
    raster_zip (fun d b => if (d >? 0) && (b =? 0) then 255 else 0)
      dilated binary_mask in
  let outline_mask := outline_array in
  let outline_layer := raster_new (xsize img) (ysize img) transparent in
  fill ← ink color;
  let outline_color_img := raster_new (xsize img) (ysize img) fill in
  let outline_layer := paste_mask outline_layer outline_color_img outline_mask in
  (* composite: outline first, then original on top *)
  let result := raster_new (xsize img) (ysize img) transparent in
  let result := alpha_composite result outline_layer in
  let result := alpha_composite result img in
  Ok result.

(** ** The imaging library's floating-point filters

    Two operations of Pillow compute in floating point; the script only
    passes them on, and they are kept as an interface. *)
Class imaging := {
  (** Pixel [(x, y)] of [img.resize((w, h), Image.LANCZOS)]. *)
  lanczos : image -> nat -> nat -> nat -> nat -> pixel;
  (** One byte [in1 + alpha * (in2 - in1)] of [Image.blend], for a factor
      [alpha] other than 0 and 1. *)
  blend_float : Q -> Z -> Z -> Z
}.

(** ** [add_padding] *)

Definition resize `{imaging} (img : image) (w h : nat) : image :=
  Raster w h
    ((fun y : nat => (fun x : nat => lanczos img w h x y) <$> seq 0 w)
       <$> seq 0 h).

(** [dst.paste(src, (left, top))]: the box of the size of [src] at
    [(left, top)] is overwritten, the rest of [dst] is kept. *)
Definition paste_at (dst src : image) (left top : nat) : image :=
  Raster (xsize dst) (ysize dst)
    (imap (fun y row =>
       imap (fun x p =>
         if ((left <=? x) && (x <? left + xsize src)
             && (top <=? y) && (y <? top + ysize src))%nat
         then default p (getpixel src (x - left) (y - top))
         else p) row) (cells dst)).

Definition add_padding `{imaging} (img : image) (padding : Z) : result image :=
  if padding <=? 0 then Ok img
  else
    let orig_width := Z.of_nat (xsize img) in
    let orig_height := Z.of_nat (ysize img) in
    let new_content_width := orig_width - padding * 2 in
    let new_content_height := orig_height - padding * 2 in
    if (new_content_width <=? 0) || (new_content_height <=? 0)
    then Raise PaddingTooLarge
    else
      let resized :=
        resize img (Z.to_nat new_content_width) (Z.to_nat new_content_height) in
      let canvas := raster_new (xsize img) (ysize img) transparent in
      Ok (paste_at canvas resized (Z.to_nat padding) (Z.to_nat padding)).

(** ** [adjust_brightness] *)

(** One byte of [Image.blend(im1, im2, alpha)]: the factors 0 and 1 return a
    copy of the first and of the second image. *)
Definition blend_byte `{imaging} (factor : Q) (in1 in2 : Z) : Z :=
  if Qeq_bool factor 0 then in1
  else if Qeq_bool factor 1 then in2
  else blend_float factor in1 in2.

(** [ImageEnhance.Brightness(img).enhance(factor)] blends a black image
    with [img]. *)
Definition enhance `{imaging} (factor : Q) (b : band) : band :=
  raster_zip (blend_byte factor) (raster_new (xsize b) (ysize b) 0) b.

(** [Image.merge('RGBA', (r, g, b, a))]. *)
Definition merge_rgba (r g b a : band) : image :=
  raster_zip (fun '(r, g, b) a => RGBA r g b a)
    (raster_zip (fun '(r, g) b => (r, g, b)) (raster_zip pair r g) b) a.

(** The factor [1.0 + brightness / 100.0] is kept as the rational it
    rounds: for an integer [brightness] in -100..100 the float is 0.0 only
    for -100 and 1.0 only for 0.  [Image.blend] works byte by byte, so the
    RGB image that is enhanced is kept as its three bands. *)
Definition adjust_brightness `{imaging} (img : image) (brightness : Z) : image :=
  let brightness := Z.max (-100) (Z.min 100 brightness) in
  if brightness =? 0 then img
  else
    let '(r, g, b, a) :=
      (raster_map red img, raster_map green img, raster_map blue img,
       raster_map alpha img) in
    let factor :=
      if brightness >? 0
      then (1 + inject_Z brightness / 100)%Q
      else (1 + inject_Z brightness / 100)%Q in
    let '(r2, g2, b2) := (enhance factor r, enhance factor g, enhance factor b) in
    merge_rgba r2 g2 b2 a.

(** ** [parse_outline_arg]

    Strings are sequences of characters with code points below 256. *)

Definition code (c : ascii) : nat := nat_of_ascii c.

(** [str.isspace], which [str.strip] and the regular expression's [\s]
    use. *)
Definition isspace (c : ascii) : bool :=
  ((9 <=? code c) && (code c <=? 13) || (28 <=? code c) && (code c <=? 32)
   || (code c =? 133) || (code c =? 160))%nat.

(** The regular expression's [\d]. *)
Definition isdecimal (c : ascii) : bool :=
  ((48 <=? code c) && (code c <=? 57))%nat.

(** The regular expression's [.], anything but a newline. *)
Definition isdot (c : ascii) : bool := negb (code c =? 10)%nat.

Fixpoint take_while (p : ascii -> bool) (s : list ascii) : list ascii :=
  match s with
  | c :: s' => if p c then c :: take_while p s' else []
  | [] => []
  end.

Fixpoint drop_while (p : ascii -> bool) (s : list ascii) : list ascii :=
  match s with
  | c :: s' => if p c then drop_while p s' else s
  | [] => []
  end.

(** [s.startswith(prefix)]. *)
Fixpoint startswith (prefix s : list ascii) : bool :=
  match prefix, s with
  | [], _ => true
  | c :: prefix', d :: s' => (code c =? code d)%nat && startswith prefix' s'
  | _ :: _, [] => false
  end.

Definition strip (s : list ascii) : list ascii :=
  rev (drop_while isspace (rev (drop_while isspace s))).

Definition digit_value (c : ascii) : Z := Z.of_nat (code c) - 48.

(** The number a run of decimal digits writes. *)
Definition decimal_value (s : list ascii) : Z :=
  foldl (fun acc c => acc * 10 + digit_value c) 0 s.

(** The most digits [int] converts from a decimal string: the interpreter's
    default for [sys.get_int_max_str_digits()], which the script leaves as
    it is.  Leading zeros count. *)
Definition int_max_str_digits : Z := 4300.

(** [int(s)] on a non-empty run of decimal digits: its value, or a
    [ValueError] for a run longer than the limit. *)
Definition int10 (s : list ascii) : result Z :=
  if int_max_str_digits <? Z.of_nat (length s) then Raise IntTooManyDigits
  else Ok (decimal_value s).

Definition hex_value (c : ascii) : option Z :=
  let n := code c in
  if ((48 <=? n) && (n <=? 57))%nat then Some (Z.of_nat n - 48)
  else if ((97 <=? n) && (n <=? 102))%nat then Some (Z.of_nat n - 87)
  else if ((65 <=? n) && (n <=? 70))%nat then Some (Z.of_nat n - 55)
  else None.

(** The blanks [int] skips around a literal. *)
Definition int_space (c : ascii) : bool :=
  ((9 <=? code c) && (code c <=? 13) || (code c =? 32)
   || (code c =? 133) || (code c =? 160))%nat.

(** [int(s, 16)] on a string of two characters: two hexadecimal digits, or
    one digit with a sign before it or a blank on either side. *)
Definition int16_pair (s : list ascii) : result Z :=
  match s with
  | [c1; c2] =>
      match hex_value c1, hex_value c2 with
      | Some v1, Some v2 => Ok (v1 * 16 + v2)
      | Some v1, None => if int_space c2 then Ok v1 else Raise InvalidIntLiteral
      | None, Some v2 =>
          if int_space c1 || (code c1 =? 43)%nat then Ok v2
          else if (code c1 =? 45)%nat then Ok (- v2)
          else Raise InvalidIntLiteral
      | None, None => Raise InvalidIntLiteral
      end
  | _ => Raise InvalidIntLiteral
  end.

(** [\s+(.+)] at the head of [s], where [k] blanks are available: the run
    of blanks is taken as long as possible and given back one blank at a
    time until a non-empty [(.+)] follows. *)
Fixpoint match_blanks_rest (k : nat) (s : list ascii) : option (list ascii) :=
  match k with
  | O => None
  | S k' =>
      match take_while isdot (drop k s) with
      | [] => match_blanks_rest k' s
      | g => Some g
      end
  end.

(** [re.match(r'(\d+)(?:px)?\s+(.+)', s)]: the groups 1 and 2. *)
Definition match_outline (s : list ascii) : option (list ascii * list ascii) :=
  match take_while isdecimal s with
  | [] => None
  | digits =>
      let rest := drop_while isdecimal s in
      let rest :=
        match rest with
        | "p"%char :: "x"%char :: rest' => rest'
        | _ => rest
        end in
      match match_blanks_rest (length (take_while isspace rest)) rest with
      | Some g => Some (digits, g)
      | None => None
      end
  end.

(** [(\d+)] followed by the rest of the string. *)
Definition match_number (s : list ascii) : option (list ascii * list ascii) :=
  match take_while isdecimal s with
  | [] => None
  | digits => Some (digits, drop_while isdecimal s)
  end.

(** [,\s*(\d+)]. *)
Definition match_comma_number (s : list ascii)
  : option (list ascii * list ascii) :=
  match s with
  | ","%char :: s' => match_number (drop_while isspace s')
  | _ => None
  end.

(** [re.match(r'rgba?\((\d+),\s*(\d+),\s*(\d+)(?:,\s*(\d+))?\)', s)]: the
    groups 1 to 4, the last one optional. *)
Definition match_rgb (s : list ascii)
  : option (list ascii * list ascii * list ascii * option (list ascii)) :=
  match s with
  | "r"%char :: "g"%char :: "b"%char :: s1 =>
      let s1 := match s1 with "a"%char :: s' => s' | _ => s1 end in
      match s1 with
      | "("%char :: s2 =>
          '(r, s3) ← match_number s2;
          '(g, s4) ← match_comma_number s3;
          '(b, s5) ← match_comma_number s4;
          match s5 with
          | ")"%char :: _ => Some (r, g, b, None)
          | ","%char :: _ =>
              '(a, s6) ← match_comma_number s5;
              match s6 with
              | ")"%char :: _ => Some (r, g, b, Some a)
              | _ => None
              end
          | _ => None
          end
      | _ => None
      end
  | _ => None
  end.

Definition parse_hex_color (color_str : list ascii) : result pixel :=
  let hex_color := drop_while (fun c => (code c =? 35)%nat) color_str in
  let hex_color :=
    if (length hex_color =? 3)%nat
    then flat_map (fun c => [c; c]) hex_color
    else hex_color in
  if negb (length hex_color =? 6)%nat then Raise InvalidHexColor
  else
    r ← int16_pair (take 2 hex_color);
    g ← int16_pair (take 2 (drop 2 hex_color));
    b ← int16_pair (take 2 (drop 4 hex_color));
    Ok (RGBA r g b 255).

Definition parse_outline_arg (outline_str : string) : result (Z * pixel) :=
  match match_outline (strip (list_ascii_of_string outline_str)) with
  | None => Raise InvalidOutlineFormat
  | Some (group1, group2) =>
      width ← int10 group1;
      let color_str := strip group2 in
      if startswith ["#"%char] color_str then
        color ← parse_hex_color color_str;
        Ok (width, color)
      else if startswith ["r"%char; "g"%char; "b"%char] color_str then
        match match_rgb color_str with
        | None => Raise InvalidRgbColor
        | Some (group1, group2, group3, group4) =>
            r ← int10 group1;
            g ← int10 group2;
            b ← int10 group3;
            a ← match group4 with
                | Some digits => int10 digits
                | None => Ok 255
                end;
            Ok (width, RGBA r g b a)
        end
      else Raise UnknownColorFormat
  end.

(** ** Paths

    [Path(s)] on a POSIX system, kept as the string that [str] gives back
    for it and that the path is opened by: the parts of [s] between
    slashes without the empty ones and the single dots, behind one slash
    when [s] starts with slashes, behind two when it starts with exactly
    two; the path without a root and without parts is [.]. *)
Definition is_slash (c : ascii) : bool := (code c =? 47)%nat.

(** [s.split('/')]. *)
Fixpoint split_slash (s : list ascii) : list (list ascii) :=
  match s with
  | [] => [[]]
  | c :: s' =>
      if is_slash c then [] :: split_slash s'
      else
        match split_slash s' with
        | part :: parts => (c :: part) :: parts
        | [] => [[c]]
        end
  end.

Definition path_root (s : list ascii) : list ascii :=
  match length (take_while is_slash s) with
  | O => []
  | 2%nat => ["/"; "/"]%char
  | _ => ["/"%char]
  end.

Definition path_part (part : list ascii) : bool :=
  match part with
  | [] => false
  | [c] => negb (code c =? 46)%nat
  | _ => true
  end.

(** ['/'.join(parts)]. *)
Fixpoint join_slash (parts : list (list ascii)) : list ascii :=
  match parts with
  | [] => []
  | [part] => part
  | part :: parts' => part ++ "/"%char :: join_slash parts'
  end.

Definition Path (s : string) : string :=
  let s := list_ascii_of_string s in
  let root := path_root s in
  let parts := List.filter path_part (split_slash s) in
  match root, parts with
  | [], [] => "."
  | _, _ => string_of_list_ascii (root ++ join_slash parts)
  end.

(** ** [process_image] *)

(** The entries of [effects_applied]. *)
Inductive effect_label :=
  | PaddingApplied (padding : Z)
  | RemoveTransparencyThreshold (opacity_threshold : Z)
  | RemoveTransparency
  | BrightnessApplied (brightness : Z)
  | OutlineApplied (width_px : Z).

(** The lines the script prints. *)
Inductive line :=
  | AppliedEffects (effects_applied : list effect_label)
  | SavedTo (output_path : string).

(** What the script can touch.  The operating system finds one file for a
    path, [file_of] (the same file for two paths that name one file, links
    followed and [..] resolved); [files] holds the PNG files, each as the
    RGBA raster it decodes to; the files in [unwritable] cannot be opened
    for writing (a folder that is missing, a permission that is not
    given); [console] is the standard output, which takes every line. *)
Record world := World {
  file_of : string -> string;
  files : gmap string image;
  unwritable : gset string;
  console : list line
}.

(** [Image.open(path)] with the conversion to RGBA. *)
Definition Image_open (path : string) (w : world) : result image :=
  match files w !! file_of w path with
  | Some img => Ok img
  | None => Raise CannotOpen
  end.

(** [img.save(path, 'PNG')]: the file is opened for writing, which can
    fail, and then holds the image. *)
Definition save (img : image) (path : string) (w : world) : result world :=
  if decide (file_of w path ∈ unwritable w) then Raise CannotSave
  else Ok (World (file_of w) (<[file_of w path := img]> (files w))
             (unwritable w) (console w)).

Definition print (l : line) (w : world) : world :=
  World (file_of w) (files w) (unwritable w) (console w ++ [l]).

(** The effects of [process_image] on the opened image, in the order of
    the script: the state is the current [img] and [effects_applied], and a
    [raise] leaves the chain. *)
Definition apply_effects `{imaging} (img : image)
    (remove_transparency : bool) (opacity_threshold : Z)
    (outline : option string) (brightness padding : option Z)
  : result (image * list effect_label) :=
  let effects_applied := [] in
  (* Effect 1: Add padding *)
  '(img, effects_applied) ←
    match padding with
    | Some p =>
        if p >? 0 then
          img ← add_padding img p;
          Ok (img, effects_applied ++ [PaddingApplied p])
        else Ok (img, effects_applied)
    | None => Ok (img, effects_applied)
    end;
  (* Effect 2: Remove partial transparency *)
  '(img, effects_applied) ←
    (if remove_transparency then
       let img := remove_partial_transparency img opacity_threshold in
       if opacity_threshold >? 0
       then Ok (img, effects_applied
                       ++ [RemoveTransparencyThreshold opacity_threshold])
       else Ok (img, effects_applied ++ [RemoveTransparency])
     else Ok (img, effects_applied));
  (* Effect 3: Adjust brightness *)
  '(img, effects_applied) ←
    match brightness with
    | Some b =>
        if negb (b =? 0)
        then Ok (adjust_brightness img b,
                 effects_applied ++ [BrightnessApplied b])
        else Ok (img, effects_applied)
    | None => Ok (img, effects_applied)
    end;
  (* Effect 4: Add outline; [if outline:] holds for a non-empty string *)
  match outline with
  | Some (String c s) =>
      '(width_px, color) ← parse_outline_arg (String c s);
      img ← add_outline img width_px color;
      Ok (img, effects_applied ++ [OutlineApplied width_px])
  | _ => Ok (img, effects_applied)
  end.

(** The two paths are made [Path]s; then [Image.open], the effects,
    [img.save] and the two [print]s, and the string of the output path is
    returned.  An exception leaves the function where it is raised: one of
    an effect before [img.save] is reached, one of [img.save] before
    anything is printed. *)
Definition process_image `{imaging} (input_path output_path : string)
    (remove_transparency : bool) (opacity_threshold : Z)
    (outline : option string) (brightness padding : option Z)
    (w : world) : result string * world :=
  let input_path := Path input_path in
  let output_path := Path output_path in
  match Image_open input_path w with
  | Raise e => (Raise e, w)
  | Ok img =>
      match apply_effects img remove_transparency opacity_threshold
              outline brightness padding with
      | Raise e => (Raise e, w)
      | Ok (img, effects_applied) =>
          (* Save result *)
          match save img output_path w with
          | Raise e => (Raise e, w)
          | Ok w =>
              let w :=
                match effects_applied with
                | [] => w
                | _ => print (AppliedEffects effects_applied) w
                end in
              let w := print (SavedTo output_path) w in
              (Ok output_path, w)
          end
      end
  end.

(** ** [main] *)

(** The namespace [argparse] hands to [main]: the two paths, the flag, the
    threshold with its default of 0, and the three options that are [None]
    when they are not given. *)
Record arguments := {
  arg_input : string;
  arg_output : string;
  arg_remove_partial_transparency : bool;
  arg_opacity_threshold : Z;
  arg_outline : option string;
  arg_brightness : option Z;
  arg_padding : option Z
}.

(** What [main] itself prints: the hint on standard output, and the
    message of a caught exception on standard error. *)
Inductive notice :=
  | NoEffectsRequested
  | ErrorNotice (e : exn).

(** [not args.outline]: the option is missing or the empty string. *)
Definition no_outline (outline : option string) : bool :=
  match outline with
  | Some (String _ _) => false
  | _ => true
  end.

(** [main] after [parse_args]: the exit status, what [main] printed, and
    the world it leaves. *)
Definition main (args : arguments) `{imaging} (w : world)
  : Z * list notice * world :=
  if negb (arg_remove_partial_transparency args)
     && no_outline (arg_outline args)
     && bool_decide (arg_brightness args = None)
     && bool_decide (arg_padding args = None)
  then (0, [NoEffectsRequested], w)
  else
    match process_image (arg_input args) (arg_output args)
            (arg_remove_partial_transparency args)
            (arg_opacity_threshold args) (arg_outline args)
            (arg_brightness args) (arg_padding args) w with
    | (Ok _, w') => (0, [], w')
    | (Raise e, w') => (1, [ErrorNotice e], w')
    end.

(** * The notions of the specification *)

(** ** Masks and the outline *)

(** A cell of a mask counts as set when it is inside the mask and holds a
    non-zero value; every position outside the mask is unset. *)
Definition mask_at (m : band) (x y : Z) : bool :=
  (0 <=? x) && (0 <=? y) &&
  match getpixel m (Z.to_nat x) (Z.to_nat y) with
  | Some v => v >? 0
  | None => false
  end.

(** The mask [add_outline] derives from the alpha channel. *)
Definition alpha_mask (img : image) : band :=
  raster_map (fun x => if x >? 0 then 255 else 0) (raster_map alpha img).

(** The cells newly covered by the dilation: set in the dilated mask and
    not in the mask. *)
Definition outline_cell (img : image) (width_px : Z) (x y : nat) : bool :=
  mask_at (dilate_with_circular_kernel (alpha_mask img) width_px)
    (Z.of_nat x) (Z.of_nat y)
  && negb (mask_at (alpha_mask img) (Z.of_nat x) (Z.of_nat y)).

(** Outline containment as the specification words it: a grid is
    returned, the size is kept, a pixel with alpha above zero keeps its
    colour and alpha, and a fully transparent pixel on a cell of the
    outline gets the outline colour. *)
Definition outline_containment (img : image) (width_px : Z) (color : pixel)
  : Prop :=
  exists out,
  add_outline img width_px color = Ok out /\
  xsize out = xsize img /\ ysize out = ysize img /\
  (forall x y p, getpixel img x y = Some p -> alpha p > 0 ->
     getpixel out x y = Some p) /\
  (forall x y p, getpixel img x y = Some p -> alpha p = 0 ->
     outline_cell img width_px x y = true ->
     getpixel out x y = Some color).

(** ** The pipeline as the specification describes it *)

(** The optional parameters of a run. *)
Record EffectRequest := {
  req_padding : option Z;
  req_removeTransparency : bool;
  req_opacityThreshold : Z;
  req_brightness : option Z;
  req_outline : option string
}.

(** The stage functions a request asks for, in the fixed order: padding,
    alpha normalisation, brightness, outline.  An outline is asked for by a
    string that is not empty, and the string is parsed when its stage is
    reached. *)
Definition requested_stages `{imaging} (request : EffectRequest)
  : list (image -> result image) :=
  match req_padding request with
  | Some p => [fun grid => add_padding grid p]
  | None => []
  end
  ++ (if req_removeTransparency request
      then [fun grid =>
              Ok (remove_partial_transparency grid
                    (req_opacityThreshold request))]
      else [])
  ++ match req_brightness request with
     | Some delta => [fun grid => Ok (adjust_brightness grid delta)]
     | None => []
     end
  ++ match req_outline request with
     | Some (String c s) =>
         [fun grid =>
            '(width_px, color) ← parse_outline_arg (String c s);
            add_outline grid width_px color]
     | _ => []
     end.

(** Each stage feeds the next; the first failure is the result. *)
Definition compose_stages (stages : list (image -> result image))
    (grid : image) : result image :=
  foldl (fun acc stage => acc ≫= stage) (Ok grid) stages.

Definition pipeline_spec `{imaging} (request : EffectRequest) (grid : image)
  : result image :=
  compose_stages (requested_stages request) grid.

(** A label of [effects_applied] belongs to a stage the request asks
    for. *)
Definition label_requested (request : EffectRequest) (l : effect_label) : Prop :=
  match l with
  | PaddingApplied p => req_padding request = Some p
  | RemoveTransparencyThreshold t =>
      req_removeTransparency request = true /\ req_opacityThreshold request = t
  | RemoveTransparency => req_removeTransparency request = true
  | BrightnessApplied b => req_brightness request = Some b
  | OutlineApplied width_px =>
      exists s color, req_outline request = Some s /\ s <> EmptyString
                      /\ parse_outline_arg s = Ok (width_px, color)
  end.

(** The place of a label's stage in the fixed order. *)
Definition stage_rank (l : effect_label) : nat :=
  match l with
  | PaddingApplied _ => 1
  | RemoveTransparencyThreshold _ | RemoveTransparency => 2
  | BrightnessApplied _ => 3
  | OutlineApplied _ => 4
  end.

(** [process_image] called with the parameters of a request. *)
Definition run `{imaging} (input_path output_path : string)
    (request : EffectRequest) (w : world) : result string * world :=
  process_image input_path output_path
    (req_removeTransparency request) (req_opacityThreshold request)
    (req_outline request) (req_brightness request) (req_padding request) w.

(** The lines printed by a successful run. *)
Definition report (effects_applied : list effect_label) (output_path : string)
  : list line :=
  match effects_applied with
  | [] => []
  | _ => [AppliedEffects effects_applied]
  end ++ [SavedTo output_path].

(** The request [main] passes on to [process_image]. *)
Definition request_of (args : arguments) : EffectRequest := {|
  req_padding := arg_padding args;
  req_removeTransparency := arg_remove_partial_transparency args;
  req_opacityThreshold := arg_opacity_threshold args;
  req_brightness := arg_brightness args;
  req_outline := arg_outline args
|}.

(** * Auxiliary definitions *)

(** The bytes [ink] clips a colour to, and what [add_outline] draws with a
    colour that [ink] takes. *)
Definition clipped (color : pixel) : pixel :=
  RGBA (CLIP8 (red color)) (CLIP8 (green color)) (CLIP8 (blue color))
       (CLIP8 (alpha color)).

Definition draw_outline (img : image) (width_px : Z) (fill : pixel) : image :=
  let binary_mask :=
    raster_map (fun x => if x >? 0 then 255 else 0) (raster_map alpha img) in
  let outline_mask :=
    raster_zip (fun d b => if (d >? 0) && (b =? 0) then 255 else 0)
      (dilate_with_circular_kernel binary_mask width_px) binary_mask in
  alpha_composite
    (alpha_composite (raster_new (xsize img) (ysize img) transparent)
       (paste_mask (raster_new (xsize img) (ysize img) transparent)
          (raster_new (xsize img) (ysize img) fill) outline_mask))
    img.

(** A colour whose components [ink] can convert. *)
Definition c_color (color : pixel) : bool :=
  c_long_long (red color) && c_int (green color) && c_int (blue color)
  && c_int (alpha color).

(** The list after the first [n] rounds of a loop that replaces cell [i] by
    [f i] of its value. *)
Definition upto {A} (f : nat -> A -> A) (n : nat) (l : list A) : list A :=
  take n (imap f l) ++ drop n l.

(** What the loop does to one pixel. *)
Definition normalize_pixel (threshold : Z) (p : pixel) : pixel :=
  if (alpha p >=? threshold) && (alpha p >? 0)
  then RGBA (alpha p) (alpha p) (alpha p) 255
  else p.

(** The test of the dilation loop at the cell [(x, y)]. *)
Definition overlap_at (mask : band) (radius : Z) (y x : nat) : bool :=
  let kernel := create_circular_kernel radius in
  np_any_overlap
    (slice2 (cells (np_pad mask (Z.to_nat radius)))
       y (y + ysize kernel) x (x + ysize kernel))
    (cells kernel).

(** ** Sample inputs *)

(** A row of two pixels, one above and one below a threshold of 128. *)
Definition two_pixels : image :=
  Raster 2 1 [[RGBA 100 150 200 200; RGBA 100 150 200 64]].

(** A 3x3 mask with only its centre set. *)
Definition dot_mask : band :=
  Raster 3 3 [[0; 0; 0]; [0; 255; 0]; [0; 0; 0]].

(** A 3x3 image with one translucent pixel in the middle of transparent
    pixels, one of them with a colour left under its zero alpha. *)
Definition dot_image : image :=
  Raster 3 3
    [[RGBA 0 0 0 0; RGBA 9 9 9 0; RGBA 0 0 0 0];
     [RGBA 0 0 0 0; RGBA 10 20 30 40; RGBA 0 0 0 0];
     [RGBA 0 0 0 0; RGBA 0 0 0 0; RGBA 0 0 0 0]].

(** A 4x4 image, opaque white. *)
Definition white_square : image :=
  raster_new 4 4 (RGBA 255 255 255 255).

(** A stand-in for the floating-point filters, to evaluate the pipeline on
    examples: nearest-neighbour sampling and a blend in exact arithmetic. *)
Definition sample_imaging : imaging := {|
  lanczos img w h x y :=
    default transparent
      (getpixel img (x * xsize img / w)%nat (y * ysize img / h)%nat);
  blend_float factor in1 in2 :=
    CLIP8 (in1 + Qnum factor * (in2 - in1) / Zpos (Qden factor))
|}.

(** A folder with one icon and no folder below it, so that nothing can be
    written to [missing/out.png]; and requests on it: all four effects, a
    padding that leaves no room for the content, and the alpha normaliser
    alone. *)
Definition icon_folder : world :=
  World id {["icon.png"%string := white_square]}
    {["missing/out.png"%string]} [].

Definition flatten_only : EffectRequest := {|
  req_padding := None;
  req_removeTransparency := true;
  req_opacityThreshold := 128;
  req_brightness := None;
  req_outline := None
|}.

Definition all_effects : EffectRequest := {|
  req_padding := Some 1;
  req_removeTransparency := true;
  req_opacityThreshold := 128;
  req_brightness := Some (-100);
  req_outline := Some "1px #bdbabd"%string
|}.


(** Command lines on that folder: all four effects, a padding that leaves
    no room for the content, and options that ask for no change. *)
Definition all_flags : arguments := {|
  arg_input := "icon.png";
  arg_output := "out.png";
  arg_remove_partial_transparency := true;
  arg_opacity_threshold := 128;
  arg_outline := Some "1px #bdbabd"%string;
  arg_brightness := Some (-100);
  arg_padding := Some 1
|}.


Definition zero_flags : arguments := {|
  arg_input := "icon.png";
  arg_output := "out.png";
  arg_remove_partial_transparency := false;
  arg_opacity_threshold := 0;
  arg_outline := Some ""%string;
  arg_brightness := Some 0;
  arg_padding := Some 0
|}.

(** * Proofs *)

(** Well-formedness of a concrete raster. *)
Ltac solve_wf :=
  repeat match goal with
         | |- _ /\ _ => split
         | |- Forall _ _ => constructor
         | |- valid_pixel _ => unfold valid_pixel, byte_range; simpl; lia
         | |- _ = _ => reflexivity
         | |- _ \/ _ => (left; reflexivity) || (right; reflexivity)
         | |- _ => progress (unfold valid_image, wf_raster, shaped; simpl)
         end.

(** ** The script on small inputs *)

Example kernel_radius_2 :
  cells (create_circular_kernel 2)
  = [[0; 0; 1; 0; 0]; [0; 1; 1; 1; 0]; [1; 1; 1; 1; 1];
     [0; 1; 1; 1; 0]; [0; 0; 1; 0; 0]].
Proof. reflexivity. Qed.

Example dilate_dot_radius_1 :
  cells (dilate_with_circular_kernel dot_mask 1)
  = [[0; 255; 0]; [255; 255; 255]; [0; 255; 0]].
Proof. reflexivity. Qed.

Example dilate_dot_radius_0 : dilate_with_circular_kernel dot_mask 0 = dot_mask.
Proof. reflexivity. Qed.

Example parse_hex : parse_outline_arg "14px #bdbabd" = Ok (14, RGBA 189 186 189 255).
Proof. reflexivity. Qed.

Example parse_short_hex : parse_outline_arg "14 #abc" = Ok (14, RGBA 170 187 204 255).
Proof. reflexivity. Qed.

Example parse_rgb : parse_outline_arg " 3px  rgb(1, 2,3) " = Ok (3, RGBA 1 2 3 255).
Proof. reflexivity. Qed.

Example parse_without_width : parse_outline_arg "px #fff" = Raise InvalidOutlineFormat.
Proof. reflexivity. Qed.

Example parse_without_blank : parse_outline_arg "3px#fff" = Raise InvalidOutlineFormat.
Proof. reflexivity. Qed.

Example parse_named_colour : parse_outline_arg "3px red" = Raise UnknownColorFormat.
Proof. reflexivity. Qed.

Example parse_long_hex : parse_outline_arg "3px #bdbabd00" = Raise InvalidHexColor.
Proof. reflexivity. Qed.

Example parse_bad_hex : parse_outline_arg "3px #ggg" = Raise InvalidIntLiteral.
Proof. reflexivity. Qed.

Example parse_open_rgb : parse_outline_arg "3px rgb(1,2,3" = Raise InvalidRgbColor.
Proof. reflexivity. Qed.

Example parse_long_width :
  parse_outline_arg
    (string_of_list_ascii
       (replicate 4301 "1"%char ++ list_ascii_of_string " #fff"))
  = Raise IntTooManyDigits.
Proof. by vm_compute. Qed.

Example parse_wide_width :
  parse_outline_arg
    (string_of_list_ascii
       (replicate 4299 "0"%char ++ list_ascii_of_string "7 #fff"))
  = Ok (7, RGBA 255 255 255 255).
Proof. by vm_compute. Qed.

Example parse_long_component :
  parse_outline_arg
    (string_of_list_ascii
       (list_ascii_of_string "1 rgb(" ++ replicate 4301 "0"%char
        ++ list_ascii_of_string ",2,3)"))
  = Raise IntTooManyDigits.
Proof. by vm_compute. Qed.

Example outline_around_dot :
  add_outline dot_image 1 (RGBA 0 0 0 255)
  = Ok (Raster 3 3
          [[RGBA 0 0 0 0; RGBA 0 0 0 255; RGBA 0 0 0 0];
           [RGBA 0 0 0 255; RGBA 10 20 30 40; RGBA 0 0 0 255];
           [RGBA 0 0 0 0; RGBA 0 0 0 255; RGBA 0 0 0 0]]).
Proof. reflexivity. Qed.

Example outline_clipped_colour :
  add_outline dot_image 1 (RGBA 300 (-5) 0 255)
  = add_outline dot_image 1 (RGBA 255 0 0 255).
Proof. reflexivity. Qed.

Example outline_green_overflow :
  add_outline dot_image 0 (RGBA 0 2147483648 0 255) = Raise ColorOverflow.
Proof. reflexivity. Qed.

Example outline_red_overflow :
  add_outline dot_image 1 (RGBA 9223372036854775808 0 0 255)
  = Raise ColorOverflow.
Proof. reflexivity. Qed.

Example outline_red_long_long :
  add_outline dot_image 1 (RGBA 2147483648 0 0 255)
  = add_outline dot_image 1 (RGBA 255 0 0 255).
Proof. reflexivity. Qed.

Example path_dot_slash : Path "./out.png" = "out.png"%string.
Proof. reflexivity. Qed.

Example path_empty : Path "" = "."%string.
Proof. reflexivity. Qed.

Example path_slashes : Path "//a//b/./c/" = "//a/b/c"%string.
Proof. reflexivity. Qed.

Example path_three_slashes : Path "///a/../b" = "/a/../b"%string.
Proof. reflexivity. Qed.

Example path_root_only : Path "/." = "/"%string.
Proof. reflexivity. Qed.

Example run_all_effects :
  console (run (H := sample_imaging) "icon.png" "out.png" all_effects
             icon_folder).2
  = [AppliedEffects [PaddingApplied 1; RemoveTransparencyThreshold 128;
                     BrightnessApplied (-100); OutlineApplied 1];
     SavedTo "out.png"].
Proof. reflexivity. Qed.

Example run_missing_input :
  run (H := sample_imaging) "none.png" "out.png" all_effects icon_folder
  = (Raise CannotOpen, icon_folder).
Proof. reflexivity. Qed.

Example run_dot_slash :
  (run (H := sample_imaging) "./icon.png" "./out.png" flatten_only
     icon_folder).1
  = Ok "out.png"%string.
Proof. reflexivity. Qed.

Example run_in_place :
  files (run (H := sample_imaging) "icon.png" "./icon.png" flatten_only
           icon_folder).2
  = {["icon.png"%string := white_square]}.
Proof. by vm_compute. Qed.

Example run_unwritable :
  run (H := sample_imaging) "icon.png" "missing/out.png" all_effects
    icon_folder
  = (Raise CannotSave, icon_folder).
Proof. reflexivity. Qed.

Example run_colour_overflow :
  run (H := sample_imaging) "icon.png" "out.png"
    {| req_padding := None; req_removeTransparency := false;
       req_opacityThreshold := 0; req_brightness := None;
       req_outline := Some "1px rgb(9223372036854775808,0,0)"%string |}
    icon_folder
  = (Raise ColorOverflow, icon_folder).
Proof. reflexivity. Qed.

(** ** Loops that visit every cell once *)

Section loops.
Context {A : Type}.
Implicit Types (l : list A) (a : list (list A)) (g : raster A).

Lemma upto_0 f l : upto f 0 l = l.
Proof. unfold upto. by rewrite take_0, drop_0. Qed.

Lemma upto_all f l : upto f (length l) l = imap f l.
Proof.
  unfold upto. rewrite drop_all, app_nil_r.
  rewrite <- (length_imap f l). apply firstn_all.
Qed.

Lemma upto_lookup_ge f n l i : (n <= i)%nat -> upto f n l !! i = l !! i.
Proof.
  intros Hi. unfold upto.
  destruct (decide (n <= length l)%nat) as [Hn|Hn].
  - rewrite lookup_app_r; rewrite length_take, length_imap; [|lia].
    rewrite lookup_drop. f_equal. lia.
  - rewrite drop_ge by lia. rewrite app_nil_r, take_ge by (rewrite length_imap; lia).
    rewrite list_lookup_imap, lookup_ge_None_2; [done|lia].
Qed.

Lemma upto_step f n l v :
  l !! n = Some v -> <[n := f n v]> (upto f n l) = upto f (S n) l.
Proof.
  intros Hv. pose proof (lookup_lt_Some _ _ _ Hv) as Hn.
  unfold upto.
  assert (length (take n (imap f l)) = n) as Hlen
    by (rewrite length_take, length_imap; lia).
  rewrite insert_app_r_alt by lia.
  rewrite Hlen, Nat.sub_diag, (drop_S l v n Hv). simpl.
  rewrite (take_S_r (imap f l) n (f n v)).
  - by rewrite <- app_assoc.
  - by rewrite list_lookup_imap, Hv.
Qed.

Lemma for_range_S {S : Type} n (body : nat -> S -> S) s :
  for_range (Datatypes.S n) body s = body n (for_range n body s).
Proof. unfold for_range. by rewrite seq_S, foldl_snoc. Qed.

Lemma raster_eta g : Raster (xsize g) (ysize g) (cells g) = g.
Proof. by destruct g. Qed.
End loops.

Section double_loops.
Context {A : Type}.
Implicit Types (a : list (list A)) (g : raster A).

(** A double loop whose body replaces the cell it visits, and nothing
    else, by a function of the cell's value. *)
Section double_loop.
Variable F : nat -> nat -> A -> A.
Variable body : nat -> nat -> raster A -> raster A.
Hypothesis body_cell : forall y x g v,
  get2 (cells g) y x = Some v ->
  body y x g = Raster (xsize g) (ysize g) (set2 (cells g) y x (F y x v)).

Lemma inner_loop y n g row :
  cells g !! y = Some row -> (n <= length row)%nat ->
  for_range n (body y) g
  = Raster (xsize g) (ysize g) (<[y := upto (F y) n row]> (cells g)).
Proof.
  intros Hrow. induction n as [|n IH]; intros Hn.
  - rewrite upto_0, list_insert_id by done. symmetry. apply raster_eta.
  - rewrite for_range_S, IH by lia.
    pose proof (lookup_lt_Some _ _ _ Hrow) as Hy.
    destruct (lookup_lt_is_Some_2 row n) as [v Hv]; [lia|].
    rewrite (body_cell y n _ v); simpl.
    + unfold set2. rewrite list_lookup_insert_eq by done.
      by rewrite list_insert_insert_eq, upto_step.
    + unfold get2. simpl. rewrite list_lookup_insert_eq by done.
      by rewrite upto_lookup_ge.
Qed.

Lemma double_loop h w g :
  shaped h w (cells g) ->
  for_range h (fun y g => for_range w (fun x g => body y x g) g) g
  = Raster (xsize g) (ysize g) (imap (fun y => imap (F y)) (cells g)).
Proof.
  intros [Hh Hw]. rewrite <- (upto_all _ (cells g)), Hh.
  assert (h <= length (cells g))%nat as Hle by lia. clear Hh.
  induction h as [|h IH].
  - rewrite upto_0. symmetry. apply raster_eta.
  - rewrite for_range_S, IH by lia.
    destruct (lookup_lt_is_Some_2 (cells g) h) as [row Hrow]; [lia|].
    rewrite (inner_loop h w _ row); simpl.
    + f_equal. rewrite <- (upto_step _ h (cells g) row) by done.
      f_equal. f_equal. rewrite <- upto_all. f_equal.
      symmetry. eapply (proj1 (Forall_lookup _ _) Hw); eauto.
    + by rewrite upto_lookup_ge.
    + erewrite (proj1 (Forall_lookup _ _) Hw); eauto.
Qed.
End double_loop.
End double_loops.

(** ** Reading rasters *)

Section rasters.
Context {A B C : Type}.

Lemma get2_fmap (f : A -> B) (a : list (list A)) y x :
  get2 ((fun row : list A => f <$> row) <$> a) y x = f <$> get2 a y x.
Proof.
  unfold get2. rewrite list_lookup_fmap.
  destruct (a !! y) as [row|]; simpl; [|done]. apply list_lookup_fmap.
Qed.

Lemma getpixel_map (f : A -> B) (g : raster A) x y :
  getpixel (raster_map f g) x y = f <$> getpixel g x y.
Proof. apply get2_fmap. Qed.

Lemma get2_zip_with (f : A -> B -> C) a b y x :
  get2 (zip_with (zip_with f) a b) y x
  = match get2 a y x, get2 b y x with
    | Some u, Some v => Some (f u v)
    | _, _ => None
    end.
Proof.
  unfold get2. rewrite lookup_zip_with.
  destruct (a !! y) as [ra|]; simpl; [|done].
  destruct (b !! y) as [rb|]; simpl.
  - rewrite lookup_zip_with.
    destruct (ra !! x); simpl; [|done]. by destruct (rb !! x).
  - by destruct (ra !! x).
Qed.

Lemma getpixel_zip (f : A -> B -> C) g1 g2 x y :
  getpixel (raster_zip f g1 g2) x y
  = match getpixel g1 x y, getpixel g2 x y with
    | Some u, Some v => Some (f u v)
    | _, _ => None
    end.
Proof. apply get2_zip_with. Qed.

Lemma getpixel_new (w h : nat) (v : A) x y :
  getpixel (raster_new w h v) x y
  = if decide (x < w /\ y < h)%nat then Some v else None.
Proof.
  unfold getpixel, get2, raster_new. simpl.
  destruct (decide (y < h)%nat) as [Hy|Hy].
  - rewrite lookup_replicate_2 by done.
    destruct (decide (x < w)%nat) as [Hx|Hx].
    + rewrite lookup_replicate_2 by done. by rewrite decide_True.
    + rewrite decide_False by lia.
      apply lookup_replicate_None. lia.
  - rewrite decide_False by lia.
    by rewrite (proj1 (lookup_replicate_None h _ y)) by lia.
Qed.

Lemma getpixel_Some (g : raster A) x y v :
  wf_raster g -> getpixel g x y = Some v -> (x < xsize g /\ y < ysize g)%nat.
Proof.
  intros [Hh Hw]. unfold getpixel, get2.
  destruct (cells g !! y) as [row|] eqn:Hrow; [|done].
  intros Hx. pose proof (lookup_lt_Some _ _ _ Hrow).
  pose proof (lookup_lt_Some _ _ _ Hx).
  rewrite <- (proj1 (Forall_lookup _ _) Hw _ _ Hrow). lia.
Qed.

Lemma getpixel_is_Some (g : raster A) x y :
  wf_raster g -> (x < xsize g)%nat -> (y < ysize g)%nat ->
  is_Some (getpixel g x y).
Proof.
  intros [Hh Hw] Hx Hy. unfold getpixel, get2.
  destruct (lookup_lt_is_Some_2 (cells g) y) as [row Hrow]; [lia|].
  rewrite Hrow. apply lookup_lt_is_Some_2.
  by rewrite (proj1 (Forall_lookup _ _) Hw _ _ Hrow).
Qed.

Lemma wf_raster_map (f : A -> B) (g : raster A) :
  wf_raster g -> wf_raster (raster_map f g).
Proof.
  intros [Hh Hw]. split; simpl.
  - by rewrite length_fmap.
  - apply Forall_fmap. eapply Forall_impl; [exact Hw|].
    intros row Hrow. simpl. by rewrite length_fmap.
Qed.

Lemma wf_raster_new (w h : nat) (v : A) : wf_raster (raster_new w h v).
Proof.
  split; simpl.
  - apply length_replicate.
  - apply Forall_replicate, length_replicate.
Qed.

Lemma wf_raster_zip (f : A -> B -> C) g1 g2 :
  wf_raster g1 -> wf_raster g2 ->
  xsize g2 = xsize g1 -> ysize g2 = ysize g1 ->
  wf_raster (raster_zip f g1 g2).
Proof.
  intros [Hh1 Hw1] [Hh2 Hw2] Hx Hy. split; simpl.
  - rewrite length_zip_with. lia.
  - apply Forall_lookup. intros y row Hrow.
    apply lookup_zip_with_Some in Hrow as (r1 & r2 & -> & Hr1 & Hr2).
    rewrite length_zip_with.
    rewrite (proj1 (Forall_lookup _ _) Hw1 _ _ Hr1).
    rewrite (proj1 (Forall_lookup _ _) Hw2 _ _ Hr2). lia.
Qed.
End rasters.

(** Two well-formed rasters of one size with the same pixels are equal. *)
Lemma raster_ext {A} (g1 g2 : raster A) :
  wf_raster g1 -> wf_raster g2 ->
  xsize g1 = xsize g2 -> ysize g1 = ysize g2 ->
  (forall x y, getpixel g1 x y = getpixel g2 x y) ->
  g1 = g2.
Proof.
  destruct g1 as [w1 h1 c1], g2 as [w2 h2 c2]. simpl.
  intros [Hh1 Hw1] [Hh2 Hw2] -> -> Hpx. simpl in *. f_equal.
  apply list_eq. intros y.
  destruct (c1 !! y) as [r1|] eqn:Hr1, (c2 !! y) as [r2|] eqn:Hr2.
  - f_equal. apply list_eq. intros x.
    specialize (Hpx x y). unfold getpixel, get2 in Hpx. simpl in Hpx.
    by rewrite Hr1, Hr2 in Hpx.
  - apply lookup_lt_Some in Hr1. apply lookup_ge_None in Hr2. lia.
  - apply lookup_lt_Some in Hr2. apply lookup_ge_None in Hr1. lia.
  - done.
Qed.

(** ** Alpha normalisation *)

Lemma rpt_step_cell threshold y x (g : image) v :
  get2 (cells g) y x = Some v ->
  rpt_step threshold x y g
  = Raster (xsize g) (ysize g) (set2 (cells g) y x (normalize_pixel threshold v)).
Proof.
  intros Hv. unfold rpt_step, getpixel, normalize_pixel. rewrite Hv.
  destruct v as [r g0 b a]. simpl.
  destruct ((a >=? threshold) && (a >? 0)); [done|].
  unfold get2 in Hv. unfold set2.
  destruct (cells g !! y) as [row|] eqn:Hrow; [|done].
  rewrite (list_insert_id row) by done.
  rewrite list_insert_id by done. symmetry. apply raster_eta.
Qed.

(** The double loop is the pixel map [normalize_pixel]. *)
Lemma remove_partial_transparency_map (img : image) threshold :
  wf_raster img ->
  remove_partial_transparency img threshold
  = raster_map (normalize_pixel threshold) img.
Proof.
  intros Hwf. unfold remove_partial_transparency.
  rewrite (double_loop (fun _ _ => normalize_pixel threshold)
             (fun y x g => rpt_step threshold x y g)).
  - unfold raster_map. f_equal.
    erewrite imap_ext; [apply imap_const|].
    intros i row _. simpl. apply imap_const.
  - intros y x g v. apply rpt_step_cell.
  - exact Hwf.
Qed.

Lemma getpixel_normalize (img : image) threshold x y :
  wf_raster img ->
  getpixel (remove_partial_transparency img threshold) x y
  = normalize_pixel threshold <$> getpixel img x y.
Proof.
  intros Hwf. rewrite remove_partial_transparency_map by done.
  apply getpixel_map.
Qed.

Lemma wf_remove_partial_transparency (img : image) threshold :
  wf_raster img -> wf_raster (remove_partial_transparency img threshold).
Proof.
  intros Hwf. rewrite remove_partial_transparency_map by done.
  by apply wf_raster_map.
Qed.

(** A second pass finds alpha 255 on every pixel the first pass wrote. *)
Lemma normalize_pixel_twice threshold p :
  threshold <= 255 ->
  normalize_pixel threshold (normalize_pixel threshold p)
  = if (alpha p >=? threshold) && (alpha p >? 0)
    then RGBA 255 255 255 255
    else p.
Proof.
  intros Ht. unfold normalize_pixel.
  destruct ((alpha p >=? threshold) && (alpha p >? 0)) eqn:Hc; simpl.
  - replace (255 >=? threshold) with true by (symmetry; apply Z.geb_le; lia).
    done.
  - by rewrite Hc.
Qed.

(** C3: the alpha normaliser returns an image of the size of its input in
    which every pixel [(r, g, b, a)] with [a >= threshold] and [a > 0] has
    become [(a, a, a, 255)] and every other pixel is exactly the input
    pixel; with threshold 128 the pixel (100, 150, 200, 200) becomes
    (200, 200, 200, 255) and (100, 150, 200, 64) stays as it is. *)
Theorem normalize_every_pixel (img : image) (threshold : Z) :
  wf_raster img ->
  let out := remove_partial_transparency img threshold in
  xsize out = xsize img /\ ysize out = ysize img /\
  (forall x y r g b a, getpixel img x y = Some (RGBA r g b a) ->
     (a >= threshold /\ a > 0 -> getpixel out x y = Some (RGBA a a a 255)) /\
     (~ (a >= threshold /\ a > 0) ->
      getpixel out x y = Some (RGBA r g b a))) /\
  remove_partial_transparency (Raster 1 1 [[RGBA 100 150 200 200]]) 128
  = Raster 1 1 [[RGBA 200 200 200 255]] /\
  remove_partial_transparency (Raster 1 1 [[RGBA 100 150 200 64]]) 128
  = Raster 1 1 [[RGBA 100 150 200 64]].
Proof.
  intros Hwf out. subst out.
  rewrite remove_partial_transparency_map by done.
  split; [done|]. split; [done|]. split; [|split; reflexivity].
  intros x y r g b a Hp. rewrite getpixel_map, Hp. simpl.
  unfold normalize_pixel. simpl. split.
  - intros [Hge Hgt].
    replace (a >=? threshold) with true by (symmetry; apply Z.geb_le; lia).
    replace (a >? 0) with true by (symmetry; apply Z.gtb_lt; lia).
    done.
  - intros Hn.
    destruct ((a >=? threshold) && (a >? 0)) eqn:Hc; [|done].
    apply andb_true_iff in Hc as [Hge Hgt].
    apply Z.geb_le in Hge. apply Z.gtb_lt in Hgt. lia.
Qed.

Lemma normalize_every_pixel_witness :
  wf_raster two_pixels /\
  getpixel (remove_partial_transparency two_pixels 128) 0 0
  = Some (RGBA 200 200 200 255) /\
  getpixel (remove_partial_transparency two_pixels 128) 1 0
  = Some (RGBA 100 150 200 64).
Proof.
  assert (wf_raster two_pixels) as Hwf by solve_wf.
  destruct (normalize_every_pixel two_pixels 128 Hwf) as (_ & _ & Hpx & _).
  split; [exact Hwf|]. split.
  - apply (Hpx 0%nat 0%nat 100 150 200 200); [reflexivity | lia].
  - apply (Hpx 1%nat 0%nat 100 150 200 64); [reflexivity | lia].
Defined.

(** C2, as stated, fails: the first pass turns (100, 150, 200, 200) into
    (200, 200, 200, 255), whose alpha passes the test again, and the second
    pass turns it into (255, 255, 255, 255). *)
Lemma normalize_not_idempotent :
  wf_raster two_pixels /\ 0 <= 128 <= 255 /\
  remove_partial_transparency (remove_partial_transparency two_pixels 128) 128
  <> remove_partial_transparency two_pixels 128.
Proof.
  split; [solve_wf|]. split; [lia|].
  vm_compute. discriminate.
Qed.

(** C2, amended: for a threshold in 0..255 a second pass keeps every pixel
    the first pass kept and turns every pixel the first pass converted into
    (255, 255, 255, 255), so the alpha channel of the two results is the
    same, and the two results are equal exactly when every pixel of the
    input with [a >= threshold] and [a > 0] has alpha 255. *)
Theorem normalize_twice (img : image) (threshold : Z) :
  wf_raster img -> 0 <= threshold <= 255 ->
  let once := remove_partial_transparency img threshold in
  let twice := remove_partial_transparency once threshold in
  (forall x y p, getpixel img x y = Some p ->
     getpixel twice x y
     = Some (if (alpha p >=? threshold) && (alpha p >? 0)
             then RGBA 255 255 255 255 else p)) /\
  raster_map alpha twice = raster_map alpha once /\
  (twice = once <->
   forall x y p, getpixel img x y = Some p ->
     alpha p >= threshold -> alpha p > 0 -> alpha p = 255).
Proof.
  intros Hwf Ht once twice.
  assert (wf_raster once) as Hwf1 by by apply wf_remove_partial_transparency.
  assert (wf_raster twice) as Hwf2 by by apply wf_remove_partial_transparency.
  assert (forall x y,
    getpixel twice x y
    = (fun p => if (alpha p >=? threshold) && (alpha p >? 0)
                then RGBA 255 255 255 255 else p) <$> getpixel img x y) as Hpx.
  { intros x y. subst twice once. rewrite !getpixel_normalize by done.
    destruct (getpixel img x y) as [p|]; simpl; [|done].
    f_equal. apply normalize_pixel_twice. lia. }
  split; [|split].
  - intros x y p Hp. by rewrite Hpx, Hp.
  - apply raster_ext; try (by apply wf_raster_map).
    + subst twice once. by rewrite !remove_partial_transparency_map.
    + subst twice once. by rewrite !remove_partial_transparency_map.
    + intros x y. rewrite !getpixel_map, Hpx. subst once.
      rewrite getpixel_normalize by done.
      destruct (getpixel img x y) as [p|]; simpl; [|done].
      unfold normalize_pixel.
      by destruct ((alpha p >=? threshold) && (alpha p >? 0)).
  - split.
    + intros Heq x y p Hp Hge Hgt.
      assert (getpixel twice x y = getpixel once x y) as Hxy by by rewrite Heq.
      rewrite Hpx in Hxy. subst once.
      rewrite getpixel_normalize, Hp in Hxy by done. simpl in Hxy.
      unfold normalize_pixel in Hxy.
      replace (alpha p >=? threshold) with true in Hxy
        by (symmetry; apply Z.geb_le; lia).
      replace (alpha p >? 0) with true in Hxy
        by (symmetry; apply Z.gtb_lt; lia).
      simpl in Hxy. congruence.
    + intros Hall. apply raster_ext; try done.
      * subst twice once. by rewrite !remove_partial_transparency_map.
      * subst twice once. by rewrite !remove_partial_transparency_map.
      * intros x y. rewrite Hpx. subst once.
        rewrite getpixel_normalize by done.
        destruct (getpixel img x y) as [p|] eqn:Hp; simpl; [|done].
        unfold normalize_pixel.
        destruct ((alpha p >=? threshold) && (alpha p >? 0)) eqn:Hc; [|done].
        apply andb_true_iff in Hc as [Hge Hgt].
        apply Z.geb_le in Hge. apply Z.gtb_lt in Hgt.
        rewrite (Hall x y p Hp) by lia. done.
Qed.

Lemma normalize_twice_witness :
  wf_raster two_pixels /\ 0 <= 128 <= 255 /\
  getpixel (remove_partial_transparency
              (remove_partial_transparency two_pixels 128) 128) 0 0
  = Some (RGBA 255 255 255 255).
Proof.
  assert (wf_raster two_pixels) as Hwf by solve_wf.
  assert (0 <= 128 <= 255) as Ht by lia.
  destruct (normalize_twice two_pixels 128 Hwf Ht) as (Hpx & _ & _).
  split; [exact Hwf|]. split; [exact Ht|].
  apply (Hpx 0%nat 0%nat (RGBA 100 150 200 200)). reflexivity.
Defined.

(** ** Arrays: cell updates, padding, slices *)

Lemma set2_id {A} (a : list (list A)) y x v :
  get2 a y x = Some v -> set2 a y x v = a.
Proof.
  unfold get2, set2. destruct (a !! y) as [row|] eqn:Hrow; [|done].
  intros Hv. rewrite (list_insert_id row) by done. by apply list_insert_id.
Qed.

Lemma get2_imap {A} (F : nat -> nat -> A -> A) (a : list (list A)) y x :
  get2 (imap (fun y => imap (F y)) a) y x = F y x <$> get2 a y x.
Proof.
  unfold get2. rewrite list_lookup_imap.
  destruct (a !! y) as [row|]; simpl; [|done]. apply list_lookup_imap.
Qed.

Lemma shaped_imap {A} (F : nat -> nat -> A -> A) h w (a : list (list A)) :
  shaped h w a -> shaped h w (imap (fun y => imap (F y)) a).
Proof.
  intros [Hh Hw]. split.
  - by rewrite length_imap.
  - apply Forall_lookup. intros y row Hrow.
    apply list_lookup_imap_Some in Hrow as (row' & Hrow' & ->).
    rewrite length_imap. eapply (proj1 (Forall_lookup _ _) Hw); eauto.
Qed.

Lemma lookup_pad {A} (z : A) pad (l : list A) i :
  (replicate pad z ++ l ++ replicate pad z) !! i
  = if decide (i < pad)%nat then Some z
    else if decide (i < pad + length l)%nat then l !! (i - pad)%nat
    else if decide (i < pad + length l + pad)%nat then Some z
    else None.
Proof.
  repeat case_decide.
  - rewrite lookup_app_l by (rewrite length_replicate; lia).
    by apply lookup_replicate_2.
  - rewrite lookup_app_r by (rewrite length_replicate; lia).
    rewrite length_replicate. apply lookup_app_l. lia.
  - rewrite lookup_app_r by (rewrite length_replicate; lia).
    rewrite length_replicate, lookup_app_r by lia.
    apply lookup_replicate_2. lia.
  - apply lookup_ge_None. rewrite !length_app, !length_replicate. lia.
Qed.

(** A cell of the padded array: the mask's cell inside the frame, zero on
    the frame, nothing beyond it. *)
Lemma get2_np_pad (m : band) pad Y X :
  wf_raster m ->
  get2 (cells (np_pad m pad)) Y X
  = if decide (Y < ysize m + 2 * pad /\ X < xsize m + 2 * pad)%nat
    then Some (if decide (pad <= Y < pad + ysize m
                          /\ pad <= X < pad + xsize m)%nat
               then default 0 (get2 (cells m) (Y - pad) (X - pad))
               else 0)
    else None.
Proof.
  intros [Hh Hw]. unfold np_pad, get2. simpl.
  rewrite lookup_pad, length_fmap, Hh.
  destruct (decide (Y < pad)%nat) as [HY|HY].
  { destruct (decide (X < xsize m + 2 * pad)%nat) as [HX|HX].
    - rewrite lookup_replicate_2 by done.
      rewrite decide_True by lia. by rewrite decide_False by lia.
    - rewrite decide_False by lia. apply lookup_replicate_None. lia. }
  destruct (decide (Y < pad + ysize m)%nat) as [HY2|HY2].
  { rewrite list_lookup_fmap.
    destruct (lookup_lt_is_Some_2 (cells m) (Y - pad)) as [row Hrow]; [lia|].
    rewrite Hrow. simpl.
    pose proof (proj1 (Forall_lookup _ _) Hw _ _ Hrow) as Hlen. simpl in Hlen.
    rewrite lookup_pad, Hlen.
    repeat case_decide; try lia; try done.
    destruct (lookup_lt_is_Some_2 row (X - pad)) as [v Hv]; [lia|].
    by rewrite Hv. }
  destruct (decide (Y < pad + ysize m + pad)%nat) as [HY3|HY3].
  { destruct (decide (X < xsize m + 2 * pad)%nat) as [HX|HX].
    - rewrite lookup_replicate_2 by done.
      rewrite decide_True by lia. by rewrite decide_False by lia.
    - rewrite decide_False by lia. apply lookup_replicate_None. lia. }
  by rewrite decide_False by lia.
Qed.

Lemma get2_slice2 {A} (a : list (list A)) y0 y1 x0 x1 dy dx :
  get2 (slice2 a y0 y1 x0 x1) dy dx
  = if decide (dy < y1 - y0 /\ dx < x1 - x0)%nat
    then get2 a (y0 + dy) (x0 + dx)
    else None.
Proof.
  unfold slice2, get2. rewrite list_lookup_fmap, lookup_take, lookup_drop.
  destruct (decide (dy < y1 - y0)%nat) as [Hy|Hy].
  - destruct (a !! (y0 + dy)%nat) as [row|]; simpl.
    + rewrite lookup_take, lookup_drop.
      destruct (decide (dx < x1 - x0)%nat).
      * by rewrite decide_True.
      * by rewrite decide_False by lia.
    + by case_decide.
  - simpl. by rewrite decide_False by lia.
Qed.

(** [np.any] finds a true cell exactly when there is one. *)
Lemma existsb_get2 (a : list (list bool)) :
  existsb (existsb id) a = true <-> exists i j, get2 a i j = Some true.
Proof.
  rewrite existsb_exists. split.
  - intros (row & Hin & Hrow).
    apply existsb_exists in Hrow as (b & Hb & Hid).
    apply list_elem_of_In, list_elem_of_lookup in Hin as [i Hi].
    apply list_elem_of_In, list_elem_of_lookup in Hb as [j Hj].
    exists i, j. unfold get2. rewrite Hi, Hj. f_equal. exact Hid.
  - intros (i & j & Hij). unfold get2 in Hij.
    destruct (a !! i) as [row|] eqn:Hi; [|done].
    exists row. split.
    + apply list_elem_of_In, list_elem_of_lookup. eauto.
    + apply existsb_exists. exists true. split; [|done].
      apply list_elem_of_In, list_elem_of_lookup. eauto.
Qed.

Lemma np_any_overlap_true region kernel :
  np_any_overlap region kernel = true
  <-> exists dy dx v k,
        get2 region dy dx = Some v /\ get2 kernel dy dx = Some k
        /\ v > 0 /\ k > 0.
Proof.
  unfold np_any_overlap. rewrite existsb_get2. split.
  - intros (dy & dx & Hz). rewrite get2_zip_with, !get2_fmap in Hz.
    destruct (get2 region dy dx) as [v|] eqn:Hv; simpl in Hz; [|done].
    destruct (get2 kernel dy dx) as [k|] eqn:Hk; simpl in Hz; [|done].
    injection Hz as Hz. apply andb_true_iff in Hz as [Hv0 Hk0].
    apply Z.gtb_lt in Hv0. apply Z.gtb_lt in Hk0.
    exists dy, dx, v, k. repeat split; try done; lia.
  - intros (dy & dx & v & k & Hv & Hk & Hv0 & Hk0).
    exists dy, dx. rewrite get2_zip_with, !get2_fmap, Hv, Hk. simpl.
    f_equal. apply andb_true_iff.
    split; apply Z.gtb_lt; lia.
Qed.

(** ** The circular kernel *)

Lemma cond_setitem_cell {A} (c : bool) (g : raster A) y x v w :
  get2 (cells g) y x = Some v ->
  (if c then setitem g y x w else g)
  = Raster (xsize g) (ysize g) (set2 (cells g) y x (if c then w else v)).
Proof.
  intros Hv. destruct c; [done|].
  rewrite set2_id by done. symmetry. apply raster_eta.
Qed.

Lemma create_circular_kernel_cells radius :
  let size := Z.to_nat (radius * 2 + 1) in
  create_circular_kernel radius
  = Raster size size
      (imap (fun y => imap (fun x v => if kernel_cell radius x y then 1 else v))
         (replicate size (replicate size 0))).
Proof.
  intros size. unfold create_circular_kernel. fold size.
  rewrite (double_loop (fun y x v => if kernel_cell radius x y then 1 else v)
             (fun y x kernel =>
                if kernel_cell radius x y then setitem kernel y x 1 else kernel)).
  - done.
  - intros y x g v Hv. by apply cond_setitem_cell.
  - apply (wf_raster_new size size 0).
Qed.

Lemma getpixel_kernel radius x y :
  getpixel (create_circular_kernel radius) x y
  = if decide (x < Z.to_nat (radius * 2 + 1)
               /\ y < Z.to_nat (radius * 2 + 1))%nat
    then Some (if kernel_cell radius x y then 1 else 0)
    else None.
Proof.
  rewrite create_circular_kernel_cells. unfold getpixel. simpl.
  rewrite get2_imap.
  change (get2 (replicate ?h (replicate ?w ?v)) y x)
    with (getpixel (raster_new w h v) x y).
  rewrite getpixel_new. by case_decide.
Qed.

Lemma kernel_cell_iff radius x y :
  kernel_cell radius x y = true
  <-> 0 <= radius
      /\ (Z.of_nat x - radius) ^ 2 + (Z.of_nat y - radius) ^ 2
         <= radius * radius.
Proof.
  unfold kernel_cell, dist_le. rewrite andb_true_iff.
  by rewrite Z.leb_le, Z.leb_le.
Qed.

(** The centre of the kernel is set for every radius. *)
Lemma kernel_centre radius :
  0 <= radius ->
  kernel_cell radius (Z.to_nat radius) (Z.to_nat radius) = true.
Proof.
  intros Hr. apply kernel_cell_iff. split; [done|].
  rewrite Z2Nat.id by done. replace (radius - radius) with 0 by lia. nia.
Qed.

(** ** Dilation *)

Lemma dilate_cells (mask : band) radius :
  0 < radius -> wf_raster mask ->
  dilate_with_circular_kernel mask radius
  = Raster (xsize mask) (ysize mask)
      (imap (fun y =>
         imap (fun x v => if overlap_at mask radius y x then 255 else v))
         (replicate (ysize mask) (replicate (xsize mask) 0))).
Proof.
  intros Hr Hwf. unfold dilate_with_circular_kernel.
  replace (radius <=? 0) with false by (symmetry; apply Z.leb_gt; lia).
  rewrite (double_loop
             (fun y x v => if overlap_at mask radius y x then 255 else v)
             (fun y x output =>
                if overlap_at mask radius y x
                then setitem output y x 255 else output)).
  - done.
  - intros y x g v Hv. by apply cond_setitem_cell.
  - apply (wf_raster_new _ _ 0).
Qed.

Lemma getpixel_dilate (mask : band) radius x y :
  0 < radius -> wf_raster mask ->
  getpixel (dilate_with_circular_kernel mask radius) x y
  = if decide (x < xsize mask /\ y < ysize mask)%nat
    then Some (if overlap_at mask radius y x then 255 else 0)
    else None.
Proof.
  intros Hr Hwf. rewrite dilate_cells by done. unfold getpixel. simpl.
  rewrite get2_imap.
  change (get2 (replicate ?h (replicate ?w ?v)) y x)
    with (getpixel (raster_new w h v) x y).
  rewrite getpixel_new. by case_decide.
Qed.

Lemma wf_dilate (mask : band) radius :
  wf_raster mask -> wf_raster (dilate_with_circular_kernel mask radius).
Proof.
  intros Hwf. destruct (decide (0 < radius)) as [Hr|Hr].
  - rewrite dilate_cells by done. unfold wf_raster. simpl.
    apply shaped_imap. apply (wf_raster_new _ _ 0).
  - unfold dilate_with_circular_kernel.
    by replace (radius <=? 0) with true by (symmetry; apply Z.leb_le; lia).
Qed.

Lemma dilate_size (mask : band) radius :
  wf_raster mask ->
  xsize (dilate_with_circular_kernel mask radius) = xsize mask
  /\ ysize (dilate_with_circular_kernel mask radius) = ysize mask.
Proof.
  intros Hwf. destruct (decide (0 < radius)) as [Hr|Hr].
  - by rewrite dilate_cells.
  - unfold dilate_with_circular_kernel.
    by replace (radius <=? 0) with true by (symmetry; apply Z.leb_le; lia).
Qed.

Lemma mask_at_true (m : band) (X Y : Z) :
  mask_at m X Y = true
  <-> 0 <= X /\ 0 <= Y
      /\ exists v, getpixel m (Z.to_nat X) (Z.to_nat Y) = Some v /\ v > 0.
Proof.
  unfold mask_at. rewrite !andb_true_iff, !Z.leb_le.
  destruct (getpixel m (Z.to_nat X) (Z.to_nat Y)) as [v|].
  - rewrite Z.gtb_lt. split.
    + intros [[? ?] ?]. repeat split; try done. exists v. split; [done|lia].
    + intros (? & ? & v' & [= <-] & ?). repeat split; try done. lia.
  - split; [intros [_ ?]; done|]. by intros (_ & _ & v & ? & _).
Qed.

(** The loop's test holds at [(x, y)] exactly when some set cell
    [(dx, dy)] of the kernel lies over a set cell of the mask. *)
Lemma overlap_at_true (mask : band) radius y x :
  0 < radius -> wf_raster mask ->
  overlap_at mask radius y x = true
  <-> exists dx dy : nat,
        (Z.of_nat dx <= 2 * radius /\ Z.of_nat dy <= 2 * radius)
        /\ kernel_cell radius dx dy = true
        /\ mask_at mask (Z.of_nat x + Z.of_nat dx - radius)
                        (Z.of_nat y + Z.of_nat dy - radius) = true.
Proof.
  intros Hr Hwf. unfold overlap_at. rewrite np_any_overlap_true.
  assert (ysize (create_circular_kernel radius) = Z.to_nat (radius * 2 + 1))
    as -> by by rewrite create_circular_kernel_cells.
  set (R := Z.to_nat radius).
  assert (Z.to_nat (radius * 2 + 1) = (2 * R + 1)%nat) as -> by lia.
  split.
  - intros (dy & dx & v & k & Hv & Hk & Hv0 & Hk0).
    exists dx, dy.
    change (get2 (cells ?g) dy dx) with (getpixel g dx dy) in Hk.
    rewrite getpixel_kernel in Hk.
    case_decide as Hd; [|done]. injection Hk as <-.
    destruct (kernel_cell radius dx dy) eqn:Hcell; [|lia].
    rewrite get2_slice2 in Hv. case_decide as Hs; [|done].
    rewrite get2_np_pad in Hv by done.
    case_decide as Hp; [|done]. injection Hv as <-.
    case_decide as Hin; [|lia].
    split; [lia|]. split; [done|].
    apply mask_at_true. split; [lia|]. split; [lia|].
    replace (Z.to_nat (Z.of_nat x + Z.of_nat dx - radius))
      with (x + dx - R)%nat by lia.
    replace (Z.to_nat (Z.of_nat y + Z.of_nat dy - radius))
      with (y + dy - R)%nat by lia.
    unfold getpixel.
    destruct (get2 (cells mask) (y + dy - R) (x + dx - R)) as [v|];
      simpl in Hv0; [|lia].
    exists v. split; [done|lia].
  - intros (dx & dy & [Hdx Hdy] & Hcell & Hm).
    apply mask_at_true in Hm as (HX & HY & v & Hv & Hv0).
    replace (Z.to_nat (Z.of_nat x + Z.of_nat dx - radius))
      with (x + dx - R)%nat in Hv by lia.
    replace (Z.to_nat (Z.of_nat y + Z.of_nat dy - radius))
      with (y + dy - R)%nat in Hv by lia.
    pose proof (getpixel_Some _ _ _ _ Hwf Hv) as [Hxw Hyh].
    exists dy, dx, v, 1. split; [|split; [|split; [done|lia]]].
    + rewrite get2_slice2, decide_True by lia.
      rewrite get2_np_pad, decide_True by (done || lia).
      rewrite decide_True by lia.
      unfold getpixel in Hv. by rewrite Hv.
    + change (get2 (cells ?g) dy dx) with (getpixel g dx dy).
      rewrite getpixel_kernel, decide_True by lia. by rewrite Hcell.
Qed.

Lemma mask_at_inside (m : band) (X Y : Z) :
  wf_raster m -> mask_at m X Y = true ->
  0 <= X < Z.of_nat (xsize m) /\ 0 <= Y < Z.of_nat (ysize m).
Proof.
  intros Hwf Hm. apply mask_at_true in Hm as (HX & HY & v & Hv & _).
  apply getpixel_Some in Hv as [? ?]; [lia|done].
Qed.

Lemma mask_at_dilate (m : band) radius (X Y : Z) :
  0 < radius -> wf_raster m ->
  mask_at (dilate_with_circular_kernel m radius) X Y = true
  <-> (0 <= X < Z.of_nat (xsize m) /\ 0 <= Y < Z.of_nat (ysize m))
      /\ overlap_at m radius (Z.to_nat Y) (Z.to_nat X) = true.
Proof.
  intros Hr Hwf. rewrite mask_at_true. rewrite getpixel_dilate by done. split.
  - intros (HX & HY & v & Hv & Hv0). case_decide as Hd; [|done].
    injection Hv as <-. split; [lia|].
    by destruct (overlap_at m radius (Z.to_nat Y) (Z.to_nat X)).
  - intros ([HX HY] & Ho). split; [lia|]. split; [lia|].
    rewrite decide_True by lia. rewrite Ho. exists 255. split; [done|lia].
Qed.

(** A set cell of the mask stays set: the kernel's centre lies over it. *)
Lemma dilate_keeps (m : band) radius (X Y : Z) :
  0 <= radius -> wf_raster m ->
  mask_at m X Y = true ->
  mask_at (dilate_with_circular_kernel m radius) X Y = true.
Proof.
  intros Hr Hwf Hm. destruct (decide (radius = 0)) as [->|Hne].
  { done. }
  pose proof (mask_at_inside _ _ _ Hwf Hm) as [HX HY].
  apply mask_at_dilate; [lia|done|]. split; [done|].
  apply overlap_at_true; [lia|done|].
  exists (Z.to_nat radius), (Z.to_nat radius).
  split; [lia|]. split; [by apply kernel_centre|].
  by replace (Z.of_nat (Z.to_nat X) + Z.of_nat (Z.to_nat radius) - radius)
    with X by lia;
  replace (Z.of_nat (Z.to_nat Y) + Z.of_nat (Z.to_nat radius) - radius)
    with Y by lia.
Qed.

(** C1: the dilation of a mask has the size of the mask and sets nothing
    outside it; for a radius [r <= 0] it is the mask itself; for [r >= 0]
    its cell [(x, y)] is set iff some offset [(dx, dy)] in the kernel of
    side [2r + 1] has a set kernel cell and the position [(x+dx-r, y+dy-r)]
    lies inside the mask on a set cell, where the set cells of the kernel
    are those within distance [r] of its centre [(r, r)]. *)
Theorem dilate_circular (m : band) (r : Z) :
  wf_raster m ->
  let out := dilate_with_circular_kernel m r in
  (xsize out = xsize m /\ ysize out = ysize m /\ wf_raster out) /\
  (forall X Y : Z, mask_at out X Y = true ->
     0 <= X < Z.of_nat (xsize m) /\ 0 <= Y < Z.of_nat (ysize m)) /\
  (r <= 0 -> out = m) /\
  (0 <= r -> forall x y : nat, (x < xsize m)%nat -> (y < ysize m)%nat ->
     mask_at out (Z.of_nat x) (Z.of_nat y) = true
     <-> exists dx dy : nat,
           (Z.of_nat dx <= 2 * r /\ Z.of_nat dy <= 2 * r)
           /\ (exists k, getpixel (create_circular_kernel r) dx dy = Some k
                         /\ k > 0)
           /\ (0 <= Z.of_nat x + Z.of_nat dx - r < Z.of_nat (xsize m)
               /\ 0 <= Z.of_nat y + Z.of_nat dy - r < Z.of_nat (ysize m))
           /\ mask_at m (Z.of_nat x + Z.of_nat dx - r)
                        (Z.of_nat y + Z.of_nat dy - r) = true) /\
  (0 <= r -> forall dx dy : nat,
     Z.of_nat dx <= 2 * r -> Z.of_nat dy <= 2 * r ->
     (exists k, getpixel (create_circular_kernel r) dx dy = Some k /\ k > 0)
     <-> (Z.of_nat dx - r) ^ 2 + (Z.of_nat dy - r) ^ 2 <= r * r).
Proof.
  intros Hwf out. subst out.
  pose proof (dilate_size m r Hwf) as [Hx Hy].
  pose proof (wf_dilate m r Hwf) as Hwf'.
  assert (forall dx dy : nat,
    Z.of_nat dx <= 2 * r -> Z.of_nat dy <= 2 * r ->
    (exists k, getpixel (create_circular_kernel r) dx dy = Some k /\ k > 0)
    <-> kernel_cell r dx dy = true) as Hkernel.
  { intros dx dy Hdx Hdy. rewrite getpixel_kernel, decide_True by lia.
    destruct (kernel_cell r dx dy).
    - split; [done|]. intros _. exists 1. split; [done|lia].
    - split; [intros (k & [= <-] & ?); lia|done]. }
  split; [done|]. split; [|split; [|split]].
  - intros X Y Hm. apply mask_at_inside in Hm; [|done]. lia.
  - intros Hr. unfold dilate_with_circular_kernel.
    by replace (r <=? 0) with true by (symmetry; apply Z.leb_le; lia).
  - intros Hr x y Hxw Hyh. destruct (decide (r = 0)) as [->|Hne].
    + change (dilate_with_circular_kernel m 0) with m. split.
      * intros Hm. exists 0%nat, 0%nat. split; [lia|].
        split; [apply Hkernel; (lia || done)|].
        split; [lia|].
        by replace (Z.of_nat x + Z.of_nat 0 - 0) with (Z.of_nat x) by lia;
          replace (Z.of_nat y + Z.of_nat 0 - 0) with (Z.of_nat y) by lia.
      * intros (dx & dy & [Hdx Hdy] & _ & _ & Hm).
        by replace (Z.of_nat x + Z.of_nat dx - 0) with (Z.of_nat x) in Hm by lia;
          replace (Z.of_nat y + Z.of_nat dy - 0) with (Z.of_nat y) in Hm by lia.
    + rewrite mask_at_dilate by (done || lia).
      rewrite !Nat2Z.id, overlap_at_true by (done || lia). split.
      * intros (_ & dx & dy & Hd & Hcell & Hm). exists dx, dy.
        split; [done|]. split; [apply Hkernel; (lia || done)|].
        split; [by apply mask_at_inside|done].
      * intros (dx & dy & Hd & Hk & _ & Hm). split; [lia|].
        exists dx, dy. split; [done|]. split; [|done].
        apply Hkernel; (lia || done).
  - intros Hr dx dy Hdx Hdy. rewrite Hkernel by done.
    rewrite kernel_cell_iff. split; [by intros [_ ?]|]. by split.
Qed.

Lemma dilate_circular_witness :
  wf_raster dot_mask /\
  mask_at (dilate_with_circular_kernel dot_mask 1) 1 0 = true.
Proof.
  assert (wf_raster dot_mask) as Hwf by solve_wf.
  split; [exact Hwf|].
  destruct (dilate_circular dot_mask 1 Hwf) as (_ & _ & _ & Hcell & _).
  apply (Hcell ltac:(lia) 1%nat 0%nat); [simpl; lia | simpl; lia |].
  exists 1%nat, 2%nat. split; [lia|]. split; [|split; [simpl; lia|reflexivity]].
  exists 1. split; [reflexivity|lia].
Defined.

(** C7: for radii [0 <= r1 <= r2] every cell set in the dilation by [r1]
    is set in the dilation by [r2]. *)
Theorem dilate_monotone (m : band) (r1 r2 : Z) :
  wf_raster m -> 0 <= r1 <= r2 ->
  forall X Y : Z,
    mask_at (dilate_with_circular_kernel m r1) X Y = true ->
    mask_at (dilate_with_circular_kernel m r2) X Y = true.
Proof.
  intros Hwf [Hr1 Hr12] X Y H1.
  destruct (decide (r1 = 0)) as [->|Hne].
  { apply dilate_keeps; [lia|done|]. exact H1. }
  apply mask_at_dilate in H1 as [Hin Ho]; [|lia|done].
  apply mask_at_dilate; [lia|done|]. split; [done|].
  apply overlap_at_true in Ho as (dx & dy & Hd & Hcell & Hm); [|lia|done].
  apply overlap_at_true; [lia|done|].
  exists (dx + Z.to_nat (r2 - r1))%nat, (dy + Z.to_nat (r2 - r1))%nat.
  split; [lia|]. split.
  - apply kernel_cell_iff in Hcell as [_ Hcell].
    apply kernel_cell_iff. split; [lia|].
    replace (Z.of_nat (dx + Z.to_nat (r2 - r1)) - r2)
      with (Z.of_nat dx - r1) by lia.
    replace (Z.of_nat (dy + Z.to_nat (r2 - r1)) - r2)
      with (Z.of_nat dy - r1) by lia.
    nia.
  - by replace (Z.of_nat (Z.to_nat X) + Z.of_nat (dx + Z.to_nat (r2 - r1)) - r2)
      with (Z.of_nat (Z.to_nat X) + Z.of_nat dx - r1) by lia;
    replace (Z.of_nat (Z.to_nat Y) + Z.of_nat (dy + Z.to_nat (r2 - r1)) - r2)
      with (Z.of_nat (Z.to_nat Y) + Z.of_nat dy - r1) by lia.
Qed.

Lemma dilate_monotone_witness :
  wf_raster dot_mask /\ 0 <= 1 <= 2 /\
  mask_at (dilate_with_circular_kernel dot_mask 2) 1 0 = true.
Proof.
  assert (wf_raster dot_mask) as Hwf by solve_wf.
  assert (0 <= 1 <= 2) as Hr by lia.
  split; [exact Hwf|]. split; [exact Hr|].
  apply (dilate_monotone dot_mask 1 2 Hwf Hr 1 0). reflexivity.
Defined.

(** C10: for a radius [r >= 0] every cell set in the mask is set in its
    dilation, the centre of the kernel being set for every radius. *)
Theorem dilate_extensive (m : band) (r : Z) :
  wf_raster m -> 0 <= r ->
  kernel_cell r (Z.to_nat r) (Z.to_nat r) = true /\
  forall X Y : Z,
    mask_at m X Y = true ->
    mask_at (dilate_with_circular_kernel m r) X Y = true.
Proof.
  intros Hwf Hr. split; [by apply kernel_centre|].
  intros X Y. by apply dilate_keeps.
Qed.

Lemma dilate_extensive_witness :
  wf_raster dot_mask /\ 0 <= 1 /\
  mask_at (dilate_with_circular_kernel dot_mask 1) 1 1 = true.
Proof.
  assert (wf_raster dot_mask) as Hwf by solve_wf.
  assert (0 <= 1) as Hr by lia.
  split; [exact Hwf|]. split; [exact Hr|].
  destruct (dilate_extensive dot_mask 1 Hwf Hr) as [_ Hext].
  apply (Hext 1 1). reflexivity.
Defined.

(** ** Pillow's byte arithmetic *)

(** A property of bytes that holds for each of the 256 values. *)
Lemma forall_bytes (P : Z -> bool) :
  forallb P (Z.of_nat <$> seq 0 256) = true ->
  forall c, byte_range c -> P c = true.
Proof.
  intros Hall c [Hlo Hhi].
  apply (proj1 (forallb_forall _ _) Hall).
  apply list_elem_of_In, list_elem_of_fmap. exists (Z.to_nat c).
  split; [lia|]. apply list_elem_of_In, in_seq. lia.
Qed.

Lemma DIV255_byte c : byte_range c -> DIV255 (c * 255) = c.
Proof.
  intros Hc. apply Z.eqb_eq.
  apply (forall_bytes (fun c => DIV255 (c * 255) =? c)); [|done].
  by vm_compute.
Qed.

Lemma composite_channel_byte c :
  byte_range c ->
  Z.shiftr (SHIFTFORDIV255 (c * (255 * Z.shiftl 1 PRECISION_BITS)
                            + Z.shiftl 128 PRECISION_BITS)) PRECISION_BITS
  = c.
Proof.
  intros Hc. apply Z.eqb_eq.
  apply (forall_bytes (fun c =>
    Z.shiftr (SHIFTFORDIV255 (c * (255 * Z.shiftl 1 PRECISION_BITS)
                              + Z.shiftl 128 PRECISION_BITS)) PRECISION_BITS
    =? c)); [|done].
  by vm_compute.
Qed.

Lemma composite_alpha_byte a :
  byte_range a -> SHIFTFORDIV255 (a * 255 + 128) = a.
Proof. intros Ha. by apply (DIV255_byte a). Qed.

Lemma CLIP8_byte c : byte_range c -> CLIP8 c = c.
Proof. unfold CLIP8, byte_range. lia. Qed.

Lemma clipped_valid color : valid_pixel color -> clipped color = color.
Proof.
  intros (Hr & Hg & Hb & Ha). destruct color as [r g b a]. unfold clipped.
  simpl in *. by rewrite !CLIP8_byte.
Qed.

Lemma clipped_is_valid color : valid_pixel (clipped color).
Proof. unfold valid_pixel, byte_range, clipped, CLIP8. simpl. lia. Qed.

(** [ink] takes the colours whose components fit their C types, and
    returns their clipped bytes. *)
Lemma ink_c_color color :
  ink color = if c_color color then Ok (clipped color) else Raise ColorOverflow.
Proof. reflexivity. Qed.

Lemma c_color_valid color : valid_pixel color -> c_color color = true.
Proof.
  intros (Hr & Hg & Hb & Ha). unfold c_color, c_long_long, c_int.
  unfold byte_range in *.
  repeat (apply andb_true_intro; split);
    first [apply Z.leb_le | apply Z.ltb_lt]; lia.
Qed.

Lemma ink_valid color : valid_pixel color -> ink color = Ok color.
Proof.
  intros Hc. by rewrite ink_c_color, c_color_valid, clipped_valid.
Qed.

(** A matte of 0 keeps the destination, a matte of 255 takes the source. *)
Lemma paste_pixel_0 out inp : valid_pixel out -> paste_pixel out inp 0 = out.
Proof.
  intros (Hr & Hg & Hb & Ha). destruct out as [r g b a]. simpl in *.
  unfold paste_pixel, BLEND. simpl.
  rewrite !Z.mul_0_r, !Z.add_0_r. by rewrite !DIV255_byte.
Qed.

Lemma paste_pixel_255 out inp : valid_pixel inp -> paste_pixel out inp 255 = inp.
Proof.
  intros (Hr & Hg & Hb & Ha). destruct inp as [r g b a]. simpl in *.
  unfold paste_pixel, BLEND. simpl.
  rewrite !Z.mul_0_r, !Z.add_0_l. by rewrite !DIV255_byte.
Qed.

(** Compositing a fully transparent pixel over anything changes nothing. *)
Lemma composite_pixel_clear dst src :
  alpha src = 0 -> composite_pixel dst src = dst.
Proof. intros Ha. unfold composite_pixel. by rewrite Ha. Qed.

(** Compositing a pixel that is not fully transparent over a fully
    transparent one gives that pixel, colour and alpha. *)
Lemma composite_pixel_over_transparent src :
  valid_pixel src -> alpha src > 0 ->
  composite_pixel transparent src = src.
Proof.
  intros (Hr & Hg & Hb & Ha) Hpos. destruct src as [r g b a]. simpl in *.
  unfold composite_pixel. simpl.
  replace (a =? 0) with false by (symmetry; apply Z.eqb_neq; lia).
  rewrite !Z.add_0_r.
  replace (a * 255 * 255 * Z.shiftl 1 PRECISION_BITS / (a * 255))
    with (255 * Z.shiftl 1 PRECISION_BITS).
  2:{ replace (a * 255 * 255 * Z.shiftl 1 PRECISION_BITS)
        with (255 * Z.shiftl 1 PRECISION_BITS * (a * 255)) by lia.
      rewrite Z.div_mul; [done|lia]. }
  by rewrite !composite_channel_byte, composite_alpha_byte.
Qed.

(** ** The outline *)

Lemma valid_image_pixel (img : image) x y p :
  valid_image img -> getpixel img x y = Some p -> valid_pixel p.
Proof.
  intros [_ Hv]. unfold getpixel, get2.
  destruct (cells img !! y) as [row|] eqn:Hrow; [|done]. intros Hp.
  pose proof (proj1 (Forall_lookup _ _) Hv _ _ Hrow) as Hr.
  eapply (proj1 (Forall_lookup _ _) Hr); eauto.
Qed.

(** [add_outline] draws with the bytes of its colour, when [ink] takes
    it. *)
Lemma add_outline_draw (img : image) width_px color :
  add_outline img width_px color
  = if c_color color then Ok (draw_outline img width_px (clipped color))
    else Raise ColorOverflow.
Proof.
  unfold add_outline. rewrite ink_c_color. by destruct (c_color color).
Qed.

(** One pixel of the outlined image: the matte is set where the dilated
    mask is set and the image's own mask is not, the colour is pasted
    through the matte on a transparent layer, and the image is composited
    on top. *)
Lemma getpixel_add_outline (img : image) width_px color x y p :
  wf_raster img -> getpixel img x y = Some p ->
  exists d,
    getpixel (dilate_with_circular_kernel (alpha_mask img) width_px) x y
    = Some d
    /\ getpixel (draw_outline img width_px color) x y
       = Some (composite_pixel
                 (composite_pixel transparent
                    (paste_pixel transparent color
                       (if (d >? 0) && ((if alpha p >? 0 then 255 else 0) =? 0)
                        then 255 else 0)))
                 p).
Proof.
  intros Hwf Hp.
  pose proof (getpixel_Some _ _ _ _ Hwf Hp) as [Hx Hy].
  assert (wf_raster (alpha_mask img)) as Hwfm
    by (unfold alpha_mask; by do 2 apply wf_raster_map).
  pose proof (wf_dilate (alpha_mask img) width_px Hwfm) as Hwfd.
  pose proof (dilate_size (alpha_mask img) width_px Hwfm) as [Hdx Hdy].
  destruct (getpixel_is_Some
              (dilate_with_circular_kernel (alpha_mask img) width_px) x y)
    as [d Hd]; [done|by rewrite Hdx|by rewrite Hdy|].
  exists d. split; [done|].
  unfold draw_outline, alpha_composite, paste_mask.
  fold (alpha_mask img).
  rewrite !getpixel_zip, !getpixel_new, Hd, Hp.
  rewrite !decide_True by (split; assumption).
  unfold alpha_mask. by rewrite !getpixel_map, Hp.
Qed.

Lemma wf_add_outline (img : image) width_px color :
  wf_raster img -> wf_raster (draw_outline img width_px color).
Proof.
  intros Hwf.
  assert (wf_raster (alpha_mask img)) as Hwfm
    by (unfold alpha_mask; by do 2 apply wf_raster_map).
  pose proof (wf_dilate (alpha_mask img) width_px Hwfm) as Hwfd.
  pose proof (dilate_size (alpha_mask img) width_px Hwfm) as [Hdx Hdy].
  unfold draw_outline, alpha_composite, paste_mask. fold (alpha_mask img).
  repeat (apply wf_raster_zip; try apply wf_raster_new; try done).
Qed.

(** A pixel of the image that is not fully transparent comes out as it
    went in. *)
Lemma add_outline_keeps (img : image) width_px color x y p :
  valid_image img -> getpixel img x y = Some p -> alpha p > 0 ->
  getpixel (draw_outline img width_px color) x y = Some p.
Proof.
  intros Hv Hp Ha. pose proof (valid_image_pixel _ _ _ _ Hv Hp) as Hvp.
  destruct (getpixel_add_outline img width_px color x y p)
    as (d & _ & ->); [apply Hv|done|].
  replace (alpha p >? 0) with true by (symmetry; apply Z.gtb_lt; lia).
  rewrite andb_false_r.
  rewrite paste_pixel_0 by (unfold valid_pixel, byte_range; simpl; lia).
  rewrite (composite_pixel_clear transparent transparent) by done.
  by rewrite composite_pixel_over_transparent.
Qed.

(** A fully transparent pixel of the image comes out as the outline colour
    composited on nothing where the dilated mask is set, and as
    [(0, 0, 0, 0)] elsewhere. *)
Lemma add_outline_fills (img : image) width_px color x y p :
  valid_image img -> valid_pixel color ->
  getpixel img x y = Some p -> alpha p = 0 ->
  getpixel (draw_outline img width_px color) x y
  = Some (if mask_at (dilate_with_circular_kernel (alpha_mask img) width_px)
               (Z.of_nat x) (Z.of_nat y)
             && (alpha color >? 0)
          then color else transparent).
Proof.
  intros Hv Hc Hp Ha.
  destruct (getpixel_add_outline img width_px color x y p)
    as (d & Hd & ->); [apply Hv|done|].
  unfold mask_at. rewrite !Nat2Z.id, Hd.
  replace (0 <=? Z.of_nat x) with true by (symmetry; apply Z.leb_le; lia).
  replace (0 <=? Z.of_nat y) with true by (symmetry; apply Z.leb_le; lia).
  rewrite Ha. simpl. rewrite andb_true_r.
  rewrite (composite_pixel_clear _ p) by done.
  destruct (d >? 0); simpl.
  - rewrite paste_pixel_255 by done.
    destruct (alpha color >? 0) eqn:Hac.
    + apply Z.gtb_lt in Hac.
      rewrite composite_pixel_over_transparent by (done || lia). done.
    + rewrite composite_pixel_clear; [done|].
      destruct Hc as (_ & _ & _ & Hca). unfold byte_range in Hca.
      rewrite Z.gtb_ltb in Hac. apply Z.ltb_ge in Hac. lia.
  - rewrite paste_pixel_0 by (unfold valid_pixel, byte_range; simpl; lia).
    by rewrite composite_pixel_clear.
Qed.

Lemma mask_at_alpha_mask (img : image) x y p :
  getpixel img x y = Some p ->
  mask_at (alpha_mask img) (Z.of_nat x) (Z.of_nat y) = (alpha p >? 0).
Proof.
  intros Hp. unfold mask_at, alpha_mask.
  rewrite !Nat2Z.id, !getpixel_map, Hp. simpl.
  replace (0 <=? Z.of_nat x) with true by (symmetry; apply Z.leb_le; lia).
  replace (0 <=? Z.of_nat y) with true by (symmetry; apply Z.leb_le; lia).
  simpl. by destruct (alpha p >? 0).
Qed.

(** C4, as stated, fails for an outline colour that is itself fully
    transparent: [--outline="1px rgba(1,2,3,0)"] composites nothing, and
    the cell above the dot comes out as (0, 0, 0, 0), not as (1, 2, 3, 0). *)
Lemma outline_transparent_colour :
  valid_image dot_image /\ valid_pixel (RGBA 1 2 3 0) /\ 0 < 1 /\
  parse_outline_arg "1px rgba(1,2,3,0)" = Ok (1, RGBA 1 2 3 0) /\
  ~ outline_containment dot_image 1 (RGBA 1 2 3 0).
Proof.
  split; [solve_wf|]. split; [solve_wf|]. split; [lia|].
  split; [reflexivity|].
  intros (out & Hout & _ & _ & _ & Hfill).
  injection Hout as <-.
  specialize (Hfill 1%nat 0%nat (RGBA 9 9 9 0) eq_refl eq_refl eq_refl).
  vm_compute in Hfill. discriminate.
Qed.

(** C4, amended: for [width_px > 0] and an outline colour of four bytes
    [add_outline] returns an image of the size of its input in which every
    pixel with input alpha above zero keeps exactly its colour and alpha;
    a fully transparent input pixel becomes the outline colour where the
    dilated mask minus the original mask is set and the colour's alpha is
    not zero, and (0, 0, 0, 0) everywhere else. *)
Theorem add_outline_frame (img : image) (width_px : Z) (color : pixel) :
  valid_image img -> valid_pixel color -> 0 < width_px ->
  exists out,
  add_outline img width_px color = Ok out /\
  (xsize out = xsize img /\ ysize out = ysize img /\ wf_raster out) /\
  (forall x y p, getpixel img x y = Some p -> alpha p > 0 ->
     getpixel out x y = Some p) /\
  (forall x y p, getpixel img x y = Some p -> alpha p = 0 ->
     getpixel out x y
     = Some (if outline_cell img width_px x y && (alpha color >? 0)
             then color else transparent)).
Proof.
  intros Hv Hc Hw. exists (draw_outline img width_px color).
  split; [|split; [|split]].
  - by rewrite add_outline_draw, c_color_valid, clipped_valid.
  - split; [done|]. split; [done|]. apply wf_add_outline, Hv.
  - intros x y p Hp Ha. by apply add_outline_keeps.
  - intros x y p Hp Ha. rewrite add_outline_fills with (p := p) by done.
    unfold outline_cell. rewrite (mask_at_alpha_mask img x y p) by done.
    rewrite Ha. simpl. by rewrite andb_true_r.
Qed.

Lemma add_outline_frame_witness :
  valid_image dot_image /\ valid_pixel (RGBA 1 2 3 77) /\ 0 < 1 /\
  exists out,
    add_outline dot_image 1 (RGBA 1 2 3 77) = Ok out /\
    getpixel out 1 1 = Some (RGBA 10 20 30 40) /\
    getpixel out 1 0 = Some (RGBA 1 2 3 77).
Proof.
  assert (valid_image dot_image) as Hv by solve_wf.
  assert (valid_pixel (RGBA 1 2 3 77)) as Hc by solve_wf.
  assert (0 < 1) as Hw by lia.
  destruct (add_outline_frame dot_image 1 (RGBA 1 2 3 77) Hv Hc Hw)
    as (out & Hout & _ & Hkeep & Hfill).
  split; [exact Hv|]. split; [exact Hc|]. split; [exact Hw|].
  exists out. split; [exact Hout|]. split.
  - apply (Hkeep 1%nat 1%nat (RGBA 10 20 30 40)); [reflexivity|simpl; lia].
  - apply (Hfill 1%nat 0%nat (RGBA 9 9 9 0)); reflexivity.
Defined.

(** ** Padding *)

Section padding.
Context `{imaging}.

Lemma getpixel_resize (img : image) w h x y :
  getpixel (resize img w h) x y
  = if decide (x < w /\ y < h)%nat then Some (lanczos img w h x y) else None.
Proof.
  unfold getpixel, get2, resize. simpl. rewrite list_lookup_fmap.
  destruct (decide (y < h)%nat) as [Hy|Hy].
  - rewrite lookup_seq_lt by done. simpl. rewrite list_lookup_fmap.
    destruct (decide (x < w)%nat) as [Hx|Hx].
    + rewrite lookup_seq_lt by done. by rewrite decide_True.
    + rewrite lookup_seq_ge by lia. by rewrite decide_False by lia.
  - rewrite lookup_seq_ge by lia. by rewrite decide_False by lia.
Qed.

Lemma getpixel_paste_at (dst src : image) left top x y :
  getpixel (paste_at dst src left top) x y
  = (fun p =>
       if ((left <=? x) && (x <? left + xsize src)
           && (top <=? y) && (y <? top + ysize src))%nat
       then default p (getpixel src (x - left) (y - top))
       else p) <$> getpixel dst x y.
Proof.
  unfold getpixel at 1, paste_at. simpl.
  apply (get2_imap (fun y x p =>
    if ((left <=? x) && (x <? left + xsize src)
        && (top <=? y) && (y <? top + ysize src))%nat
    then default p (getpixel src (x - left) (y - top))
    else p)).
Qed.

Lemma wf_paste_at (dst src : image) left top :
  wf_raster dst -> wf_raster (paste_at dst src left top).
Proof.
  intros Hwf. unfold wf_raster, paste_at. simpl.
  by apply (shaped_imap (fun y x p =>
    if ((left <=? x) && (x <? left + xsize src)
        && (top <=? y) && (y <? top + ysize src))%nat
    then default p (getpixel src (x - left) (y - top))
    else p)).
Qed.

Lemma add_padding_nonpositive (img : image) padding :
  padding <= 0 -> add_padding img padding = Ok img.
Proof.
  intros Hp. unfold add_padding.
  by replace (padding <=? 0) with true by (symmetry; apply Z.leb_le; lia).
Qed.

Lemma add_padding_positive (img : image) padding :
  0 < padding ->
  add_padding img padding
  = if decide (Z.of_nat (xsize img) <= 2 * padding
               \/ Z.of_nat (ysize img) <= 2 * padding)
    then Raise PaddingTooLarge
    else Ok (paste_at (raster_new (xsize img) (ysize img) transparent)
               (resize img (Z.to_nat (Z.of_nat (xsize img) - padding * 2))
                  (Z.to_nat (Z.of_nat (ysize img) - padding * 2)))
               (Z.to_nat padding) (Z.to_nat padding)).
Proof.
  intros Hp. unfold add_padding.
  replace (padding <=? 0) with false by (symmetry; apply Z.leb_gt; lia).
  case_decide as Hd.
  - replace ((Z.of_nat (xsize img) - padding * 2 <=? 0)
             || (Z.of_nat (ysize img) - padding * 2 <=? 0)) with true; [done|].
    symmetry. apply orb_true_iff. rewrite !Z.leb_le. lia.
  - replace ((Z.of_nat (xsize img) - padding * 2 <=? 0)
             || (Z.of_nat (ysize img) - padding * 2 <=? 0)) with false; [done|].
    symmetry. apply orb_false_iff. rewrite !Z.leb_gt. lia.
Qed.

(** C6: on an image with positive width and height and for a padding
    [p >= 0], [add_padding] raises, and then the padding error, iff
    [2p >= width] or [2p >= height]; a result has the size of the input,
    holds the input resampled to [(width - 2p, height - 2p)] in the box
    at [(p, p)] and transparent pixels around it; and [p = 0] returns the
    input itself. *)
Theorem add_padding_bounds (img : image) (p : Z) :
  wf_raster img -> (0 < xsize img)%nat -> (0 < ysize img)%nat -> 0 <= p ->
  ((exists e, add_padding img p = Raise e)
   <-> 2 * p >= Z.of_nat (xsize img) \/ 2 * p >= Z.of_nat (ysize img)) /\
  (forall e, add_padding img p = Raise e ->
     e = PaddingTooLarge /\ kind_of e = InvalidPadding) /\
  (forall out, add_padding img p = Ok out ->
     xsize out = xsize img /\ ysize out = ysize img /\ wf_raster out /\
     (0 < p -> forall x y : nat,
        (x < xsize img)%nat -> (y < ysize img)%nat ->
        getpixel out x y
        = Some (if decide (p <= Z.of_nat x < Z.of_nat (xsize img) - p
                           /\ p <= Z.of_nat y < Z.of_nat (ysize img) - p)
                then lanczos img
                       (Z.to_nat (Z.of_nat (xsize img) - 2 * p))
                       (Z.to_nat (Z.of_nat (ysize img) - 2 * p))
                       (x - Z.to_nat p) (y - Z.to_nat p)
                else transparent))) /\
  (p = 0 -> add_padding img p = Ok img).
Proof.
  intros Hwf Hw Hh Hp.
  destruct (decide (p = 0)) as [->|Hne].
  { rewrite add_padding_nonpositive by lia.
    split; [|split; [|split; [|done]]].
    - split; [by intros [e ?]|lia].
    - by intros e.
    - intros out [= <-]. repeat split; try apply Hwf. lia. }
  rewrite add_padding_positive by lia.
  split; [|split; [|split; [|lia]]].
  - case_decide as Hd.
    + split; [lia|]. intros _. by eexists.
    + split; [by intros [e ?]|lia].
  - intros e. case_decide; [|done]. by intros [= <-].
  - intros out. case_decide as Hd; [done|]. intros [= <-].
    split; [done|]. split; [done|]. split.
    { apply wf_paste_at, wf_raster_new. }
    intros _ x y Hx Hy.
    rewrite getpixel_paste_at, getpixel_new, decide_True by done. simpl.
    f_equal. simpl.
    replace (Z.of_nat (xsize img) - p * 2)
      with (Z.of_nat (xsize img) - 2 * p) by lia.
    replace (Z.of_nat (ysize img) - p * 2)
      with (Z.of_nat (ysize img) - 2 * p) by lia.
    case_decide as Hin.
    * replace ((Z.to_nat p <=? x)
               && (x <? Z.to_nat p + Z.to_nat (Z.of_nat (xsize img) - 2 * p))
               && (Z.to_nat p <=? y)
               && (y <? Z.to_nat p + Z.to_nat (Z.of_nat (ysize img) - 2 * p)))%nat
        with true.
      2:{ symmetry. rewrite !andb_true_iff.
          rewrite !Nat.leb_le, !Nat.ltb_lt. lia. }
      rewrite getpixel_resize, decide_True by lia. done.
    * replace ((Z.to_nat p <=? x)
               && (x <? Z.to_nat p + Z.to_nat (Z.of_nat (xsize img) - 2 * p))
               && (Z.to_nat p <=? y)
               && (y <? Z.to_nat p + Z.to_nat (Z.of_nat (ysize img) - 2 * p)))%nat
        with false; [done|].
      symmetry. rewrite !andb_false_iff.
      rewrite !Nat.leb_gt, !Nat.ltb_ge. lia.
Qed.
End padding.

Lemma add_padding_bounds_witness :
  wf_raster white_square /\ (0 < xsize white_square)%nat /\
  (0 < ysize white_square)%nat /\ 0 <= 2 /\
  add_padding (H := sample_imaging) white_square 2 = Raise PaddingTooLarge.
Proof.
  assert (wf_raster white_square) as Hwf by apply wf_raster_new.
  assert (0 < xsize white_square)%nat as Hw by (simpl; lia).
  assert (0 < ysize white_square)%nat as Hh by (simpl; lia).
  assert (0 <= 2) as Hp by lia.
  destruct (add_padding_bounds (H := sample_imaging) white_square 2
              Hwf Hw Hh Hp) as (Hfail & Hkind & _).
  repeat (split; [assumption|]).
  destruct (proj2 Hfail) as [e He]; [simpl; lia|].
  by rewrite He, (proj1 (Hkind e He)).
Defined.

(** ** Brightness *)

Section brightness.
Context `{imaging}.

Lemma getpixel_enhance factor (b : band) x y :
  wf_raster b ->
  getpixel (enhance factor b) x y = blend_byte factor 0 <$> getpixel b x y.
Proof.
  intros Hwf. unfold enhance. rewrite getpixel_zip, getpixel_new.
  destruct (getpixel b x y) as [v|] eqn:Hv; simpl.
  - apply getpixel_Some in Hv as [Hx Hy]; [|done].
    by rewrite decide_True.
  - by case_decide.
Qed.

Lemma getpixel_merge_rgba (r g b a : band) x y :
  getpixel (merge_rgba r g b a) x y
  = match getpixel r x y, getpixel g x y, getpixel b x y, getpixel a x y with
    | Some vr, Some vg, Some vb, Some va => Some (RGBA vr vg vb va)
    | _, _, _, _ => None
    end.
Proof.
  unfold merge_rgba. rewrite !getpixel_zip.
  destruct (getpixel r x y), (getpixel g x y), (getpixel b x y),
    (getpixel a x y); done.
Qed.

(** One pixel of [adjust_brightness]: the three colour channels go
    through the blend with black, the alpha channel is carried over. *)
Lemma getpixel_adjust_brightness (img : image) brightness x y :
  wf_raster img ->
  getpixel (adjust_brightness img brightness) x y
  = (fun p =>
       let b := Z.max (-100) (Z.min 100 brightness) in
       if b =? 0 then p
       else
         let factor := (1 + inject_Z b / 100)%Q in
         RGBA (blend_byte factor 0 (red p)) (blend_byte factor 0 (green p))
           (blend_byte factor 0 (blue p)) (alpha p))
    <$> getpixel img x y.
Proof.
  intros Hwf. unfold adjust_brightness.
  destruct (Z.max (-100) (Z.min 100 brightness) =? 0) eqn:Hb.
  { by destruct (getpixel img x y). }
  assert ((if Z.max (-100) (Z.min 100 brightness) >? 0
           then (1 + inject_Z (Z.max (-100) (Z.min 100 brightness)) / 100)%Q
           else (1 + inject_Z (Z.max (-100) (Z.min 100 brightness)) / 100)%Q)
          = (1 + inject_Z (Z.max (-100) (Z.min 100 brightness)) / 100)%Q)
    as -> by by destruct (_ >? 0).
  rewrite getpixel_merge_rgba.
  rewrite !getpixel_enhance by by apply wf_raster_map.
  rewrite !getpixel_map.
  by destruct (getpixel img x y).
Qed.

Lemma wf_enhance factor (b : band) : wf_raster b -> wf_raster (enhance factor b).
Proof.
  intros Hwf. unfold enhance.
  apply wf_raster_zip; [apply wf_raster_new|done|done|done].
Qed.

Lemma wf_adjust_brightness (img : image) brightness :
  wf_raster img -> wf_raster (adjust_brightness img brightness).
Proof.
  intros Hwf. unfold adjust_brightness.
  destruct (_ =? 0); [done|]. unfold merge_rgba.
  assert (forall ch : pixel -> Z,
            wf_raster (enhance (1 + inject_Z
              (Z.max (-100) (Z.min 100 brightness)) / 100)%Q
              (raster_map ch img))) as Hen
    by (intros ch; by apply wf_enhance, wf_raster_map).
  destruct (_ >? 0);
    (apply wf_raster_zip;
     [apply wf_raster_zip;
      [apply wf_raster_zip; [apply Hen|apply Hen|done|done]
      |apply Hen|done|done]
     |by apply wf_raster_map|done|done]).
Qed.

(** C8: a brightness of -100 sets the three colour channels of every
    pixel to 0 and leaves its alpha as it was, and for every brightness
    every pixel keeps the alpha it had; the size does not change. *)
Theorem adjust_brightness_alpha (img : image) (delta : Z) :
  wf_raster img ->
  (forall x y p, getpixel img x y = Some p ->
     getpixel (adjust_brightness img (-100)) x y
     = Some (RGBA 0 0 0 (alpha p))) /\
  (forall x y p, getpixel img x y = Some p ->
     exists q, getpixel (adjust_brightness img delta) x y = Some q
               /\ alpha q = alpha p) /\
  raster_map alpha (adjust_brightness img delta) = raster_map alpha img /\
  xsize (adjust_brightness img delta) = xsize img /\
  ysize (adjust_brightness img delta) = ysize img.
Proof.
  intros Hwf.
  assert (xsize (adjust_brightness img delta) = xsize img
          /\ ysize (adjust_brightness img delta) = ysize img) as [Hx Hy].
  { unfold adjust_brightness. by destruct (_ =? 0). }
  assert (forall x y,
    getpixel (raster_map alpha (adjust_brightness img delta)) x y
    = getpixel (raster_map alpha img) x y) as Hpx.
  { intros x y. rewrite !getpixel_map, getpixel_adjust_brightness by done.
    destruct (getpixel img x y) as [p|]; simpl; [|done].
    by destruct (_ =? 0). }
  split; [|split; [|split; [|done]]].
  - intros x y p Hp. rewrite getpixel_adjust_brightness, Hp by done.
    reflexivity.
  - intros x y p Hp. rewrite getpixel_adjust_brightness, Hp by done.
    simpl. eexists. split; [done|]. by destruct (_ =? 0).
  - apply raster_ext; try done.
    + by apply wf_raster_map, wf_adjust_brightness.
    + by apply wf_raster_map.
Qed.
End brightness.

Lemma adjust_brightness_alpha_witness :
  wf_raster two_pixels /\
  getpixel (adjust_brightness (H := sample_imaging) two_pixels (-100)) 1 0
  = Some (RGBA 0 0 0 64).
Proof.
  assert (wf_raster two_pixels) as Hwf by solve_wf.
  split; [exact Hwf|].
  destruct (adjust_brightness_alpha (H := sample_imaging) two_pixels (-100) Hwf)
    as (Hblack & _).
  apply (Hblack 1%nat 0%nat (RGBA 100 150 200 64)). reflexivity.
Defined.

(** ** The pipeline *)

Lemma bind_Raise {A B} (m : result A) (k : A -> result B) e :
  m ≫= k = Raise e -> m = Raise e \/ exists a, m = Ok a /\ k a = Raise e.
Proof.
  destruct m as [a|e']; unfold mbind, result_bind; intros Hk; simpl in Hk.
  - right. exists a. by split.
  - left. by injection Hk as ->.
Qed.

Lemma bind_Ok {A B} (m : result A) (k : A -> result B) b :
  m ≫= k = Ok b -> exists a, m = Ok a /\ k a = Ok b.
Proof.
  destruct m as [a|e]; unfold mbind, result_bind; intros Hk; simpl in Hk.
  - by exists a.
  - discriminate.
Qed.

(** The chain of [process_image] against the composition of the requested
    stage functions: the same image or the same exception, and every label
    recorded belongs to a requested stage, in the order of the stages. *)
Lemma apply_effects_pipeline `{imaging} (request : EffectRequest) (img : image) :
  match apply_effects img (req_removeTransparency request)
          (req_opacityThreshold request) (req_outline request)
          (req_brightness request) (req_padding request) with
  | Ok (out, effects_applied) =>
      pipeline_spec request img = Ok out
      /\ Forall (label_requested request) effects_applied
      /\ StronglySorted (fun a b => (stage_rank a < stage_rank b)%nat)
           effects_applied
  | Raise e => pipeline_spec request img = Raise e
  end.
Proof.
  destruct request as [padding rt t brightness outline].
  unfold pipeline_spec, compose_stages, requested_stages, apply_effects.
  simpl.
  assert (forall g : image, adjust_brightness g 0 = g) as Hzero
    by reflexivity.
  destruct padding as [p|];
    [destruct (p >? 0) eqn:Hp;
     [destruct (add_padding img p) as [img1|e1] eqn:Hpad
     |assert (add_padding img p = Ok img) as Hpad
        by (apply add_padding_nonpositive;
            rewrite Z.gtb_ltb in Hp; apply Z.ltb_ge in Hp; lia)]|];
  (destruct rt; [destruct (t >? 0)|]);
  (destruct brightness as [b|];
   [destruct (b =? 0) eqn:Hb;
    [apply Z.eqb_eq in Hb; subst b|]|]);
  (destruct outline as [[|c s]|];
   [|destruct (parse_outline_arg (String c s)) as [[w col]|e2] eqn:Hparse|]);
  cbn; rewrite ?Hpad, ?Hparse; cbn; rewrite ?Hzero; try reflexivity;
  try match goal with
      | |- context [add_outline ?g ?w ?c] =>
          destruct (add_outline g w c) as [img2|e3]; cbn; try reflexivity
      end;
  (split; [reflexivity|]);
  (split;
   [repeat constructor; simpl; eauto;
    eexists _, _; (split; [reflexivity|]); (split; [discriminate|eassumption])
   |repeat constructor; simpl; lia]).
Qed.

Lemma int16_pair_error s e : int16_pair s = Raise e -> e = InvalidIntLiteral.
Proof.
  unfold int16_pair.
  destruct s as [|c1 [|c2 [|c3 s]]]; try by intros [= <-].
  destruct (hex_value c1), (hex_value c2);
    repeat match goal with
           | |- context [if ?b then _ else _] => destruct b
           end;
    by intros [= <-].
Qed.

Lemma int10_error s e : int10 s = Raise e -> e = IntTooManyDigits.
Proof. unfold int10. destruct (_ <? _); by intros [= <-]. Qed.

Lemma parse_hex_color_error color_str e :
  parse_hex_color color_str = Raise e ->
  e = InvalidHexColor \/ e = InvalidIntLiteral.
Proof.
  unfold parse_hex_color. destruct (negb _); [intros [= <-]; by left|].
  intros Hr. right.
  apply bind_Raise in Hr as [Hr|(r & _ & Hg)];
    [by apply int16_pair_error in Hr|].
  apply bind_Raise in Hg as [Hg|(g & _ & Hb)];
    [by apply int16_pair_error in Hg|].
  apply bind_Raise in Hb as [Hb|(b & _ & Hb)];
    [by apply int16_pair_error in Hb|done].
Qed.

(** Every exception of the outline parser is an invalid outline
    specification. *)
Lemma parse_outline_arg_error s e :
  parse_outline_arg s = Raise e -> kind_of e = InvalidOutlineSpec.
Proof.
  unfold parse_outline_arg.
  destruct (match_outline _) as [[group1 group2]|]; [|by intros [= <-]].
  intros Hw. apply bind_Raise in Hw as [Hw|(width & _ & Hc)];
    [by apply int10_error in Hw as ->|].
  destruct (startswith _ _).
  { apply bind_Raise in Hc as [Hc|(color & _ & Hc)]; [|done].
    by apply parse_hex_color_error in Hc as [-> | ->]. }
  destruct (startswith _ _); [|by injection Hc as <-].
  destruct (match_rgb _) as [[[[g1 g2] g3] g4]|]; [|by injection Hc as <-].
  apply bind_Raise in Hc as [Hc|(r & _ & Hc)];
    [by apply int10_error in Hc as ->|].
  apply bind_Raise in Hc as [Hc|(g & _ & Hc)];
    [by apply int10_error in Hc as ->|].
  apply bind_Raise in Hc as [Hc|(b & _ & Hc)];
    [by apply int10_error in Hc as ->|].
  apply bind_Raise in Hc as [Hc|(a & _ & Hc)]; [|done].
  destruct g4 as [digits|]; [|done]. by apply int10_error in Hc as ->.
Qed.

Lemma add_padding_error `{imaging} (img : image) p e :
  add_padding img p = Raise e ->
  e = PaddingTooLarge /\ 0 < p
  /\ (2 * p >= Z.of_nat (xsize img) \/ 2 * p >= Z.of_nat (ysize img)).
Proof.
  destruct (decide (0 < p)) as [Hp|Hp].
  - rewrite add_padding_positive by done.
    case_decide as Hd; [|done]. intros [= <-]. split; [done|]. lia.
  - by rewrite add_padding_nonpositive by lia.
Qed.

(** The only exception of [add_outline] is the one of [ink]. *)
Lemma add_outline_error (img : image) width_px color e :
  add_outline img width_px color = Raise e ->
  e = ColorOverflow /\ ink color = Raise ColorOverflow.
Proof.
  rewrite add_outline_draw, ink_c_color.
  destruct (c_color color); [done|]. by intros [= <-].
Qed.

(** Where a failure of the composed stages comes from: the padding stage,
    the parser of the outline stage, or the colour the parser returned. *)
Lemma pipeline_spec_error `{imaging} (request : EffectRequest) (img : image) e :
  pipeline_spec request img = Raise e ->
  (exists p, req_padding request = Some p /\ add_padding img p = Raise e)
  \/ (exists s, req_outline request = Some s /\ parse_outline_arg s = Raise e)
  \/ (e = ColorOverflow
      /\ exists s width_px color,
           req_outline request = Some s
           /\ parse_outline_arg s = Ok (width_px, color)
           /\ ink color = Raise ColorOverflow).
Proof.
  destruct request as [padding rt t brightness outline].
  unfold pipeline_spec, compose_stages, requested_stages. simpl.
  destruct padding as [p|];
    [destruct (add_padding img p) as [img1|e1] eqn:Hpad|];
  destruct rt;
  destruct brightness as [b|];
  (destruct outline as [[|c s]|];
   [|destruct (parse_outline_arg (String c s)) as [[w col]|e2] eqn:Hparse|]);
  cbn; rewrite ?Hpad, ?Hparse; cbn; try discriminate;
  try (intros [= <-]; by eauto);
  intros Hout; apply add_outline_error in Hout as [-> Hink];
  right; right; (split; [done|]); by exists (String c s), w, col.
Qed.


(** [process_image] on an input that opens: the composition of the
    requested stages decides between handing its result to [img.save] and
    leaving with its exception and the world untouched; when the output
    cannot be written, the world is untouched as well. *)
Lemma run_outcome `{imaging} input_path output_path
    (request : EffectRequest) (w : world) (img : image) :
  Image_open (Path input_path) w = Ok img ->
  match pipeline_spec request img with
  | Ok out =>
      exists effects_applied,
        run input_path output_path request w
        = (if decide (file_of w (Path output_path) ∈ unwritable w)
           then (Raise CannotSave, w)
           else (Ok (Path output_path),
                 World (file_of w)
                   (<[file_of w (Path output_path) := out]> (files w))
                   (unwritable w)
                   (console w ++ report effects_applied (Path output_path))))
        /\ Forall (label_requested request) effects_applied
        /\ StronglySorted (fun a b => (stage_rank a < stage_rank b)%nat)
             effects_applied
  | Raise e => run input_path output_path request w = (Raise e, w)
  end.
Proof.
  intros Hin. unfold run, process_image. rewrite Hin.
  pose proof (apply_effects_pipeline request img) as Hspec.
  destruct (apply_effects _ _ _ _ _ _) as [[out effects_applied]|e].
  - destruct Hspec as (-> & Hrequested & Hordered). exists effects_applied.
    split; [|by split]. unfold save.
    destruct (decide (_ ∈ _)); [done|].
    unfold report, print. destruct effects_applied; [done|]. simpl.
    by rewrite <- app_assoc.
  - by rewrite Hspec.
Qed.

(** C5: the image [process_image] hands to [img.save] is the composition
    of exactly the requested stage functions in the order padding, alpha
    normalisation, brightness, outline, each on the result of the one
    before: when the output can be written, that image is what the file of
    the output path holds afterwards; the effects the run reports are
    stages that were requested, each at most once and in that order, so a
    stage that was not requested is not run; and when the composition
    fails, the run fails with the same exception. *)
Theorem pipeline_order `{imaging} (input_path output_path : string)
    (request : EffectRequest) (w : world) (img : image) :
  Image_open (Path input_path) w = Ok img ->
  match compose_stages (requested_stages request) img with
  | Ok out =>
      exists effects_applied,
        run input_path output_path request w
        = (if decide (file_of w (Path output_path) ∈ unwritable w)
           then (Raise CannotSave, w)
           else (Ok (Path output_path),
                 World (file_of w)
                   (<[file_of w (Path output_path) := out]> (files w))
                   (unwritable w)
                   (console w ++ report effects_applied (Path output_path))))
        /\ Forall (label_requested request) effects_applied
        /\ StronglySorted (fun a b => (stage_rank a < stage_rank b)%nat)
             effects_applied
  | Raise e => run input_path output_path request w = (Raise e, w)
  end.
Proof.
  intros Hin. fold (pipeline_spec request img).
  unfold run, process_image. rewrite Hin.
  pose proof (apply_effects_pipeline request img) as Hspec.
  destruct (apply_effects img (req_removeTransparency request)
              (req_opacityThreshold request) (req_outline request)
              (req_brightness request) (req_padding request))
    as [[out effects_applied]|e].
  - destruct Hspec as (-> & Hrequested & Hordered).
    exists effects_applied. split; [|by split].
    unfold save.
    destruct (decide (file_of w (Path output_path) ∈ unwritable w));
      [done|].
    unfold report, print. destruct effects_applied as [|l effects]; [done|].
    simpl. by rewrite <- app_assoc.
  - by rewrite Hspec.
Qed.

Lemma pipeline_order_witness :
  Image_open (Path "icon.png") icon_folder = Ok white_square /\
  exists out effects_applied,
    pipeline_spec (H := sample_imaging) all_effects white_square = Ok out /\
    run (H := sample_imaging) "icon.png" "out.png" all_effects icon_folder
    = (Ok "out.png"%string,
       World id (<["out.png"%string := out]> (files icon_folder))
         (unwritable icon_folder)
         (console icon_folder ++ report effects_applied "out.png")).
Proof.
  assert (Image_open (Path "icon.png") icon_folder = Ok white_square) as Hin
    by reflexivity.
  split; [exact Hin|].
  pose proof (pipeline_order (H := sample_imaging) "icon.png" "out.png"
                all_effects icon_folder white_square Hin) as Hrun.
  fold (pipeline_spec (H := sample_imaging) all_effects white_square) in Hrun.
  destruct (pipeline_spec all_effects white_square) as [out|e] eqn:Hspec.
  - destruct Hrun as (effects_applied & Hrun & _).
    exists out, effects_applied. split; [reflexivity|]. exact Hrun.
  - vm_compute in Hspec. discriminate.
Defined.




(** * Further properties of the script *)

(** ** The kernel's shape *)

(** X1: the kernel of a radius [r >= 0] is a well-formed square of side
    [2r + 1] whose cells are 0 or 1, and it is symmetric: it is its own
    transpose and its own mirror image in both directions. *)
Theorem kernel_symmetric (r : Z) (x y : nat) :
  0 <= r -> Z.of_nat x <= 2 * r -> Z.of_nat y <= 2 * r ->
  let kernel := create_circular_kernel r in
  (wf_raster kernel /\ xsize kernel = Z.to_nat (2 * r + 1)
   /\ ysize kernel = Z.to_nat (2 * r + 1)) /\
  (getpixel kernel x y = Some 0 \/ getpixel kernel x y = Some 1) /\
  getpixel kernel y x = getpixel kernel x y /\
  getpixel kernel (Z.to_nat (2 * r) - x) y = getpixel kernel x y /\
  getpixel kernel x (Z.to_nat (2 * r) - y) = getpixel kernel x y.
Proof.
  intros Hr Hx Hy kernel. subst kernel.
  assert (forall a b : nat,
            (Z.of_nat a - r) ^ 2 = (Z.of_nat b - r) ^ 2 ->
            forall c d : nat,
              (Z.of_nat c - r) ^ 2 = (Z.of_nat d - r) ^ 2 ->
              kernel_cell r a c = kernel_cell r b d) as Hsq.
  { intros a b Hab c d Hcd. unfold kernel_cell. simpl. by rewrite Hab, Hcd. }
  split; [|split; [|split; [|split]]].
  - rewrite create_circular_kernel_cells. simpl.
    replace (r * 2 + 1) with (2 * r + 1) by lia.
    split; [|done]. unfold wf_raster. simpl.
    apply shaped_imap. apply (wf_raster_new _ _ 0).
  - rewrite getpixel_kernel, decide_True by lia.
    destruct (kernel_cell r x y); [by right|by left].
  - rewrite !getpixel_kernel, !decide_True by lia.
    unfold kernel_cell. simpl. by rewrite Z.add_comm.
  - rewrite !getpixel_kernel, !decide_True by lia.
    rewrite (Hsq (Z.to_nat (2 * r) - x)%nat x) with (c := y) (d := y); [done| |done].
    replace (Z.of_nat (Z.to_nat (2 * r) - x) - r)
      with (- (Z.of_nat x - r)) by lia.
    lia.
  - rewrite !getpixel_kernel, !decide_True by lia.
    rewrite (Hsq x x) with (c := (Z.to_nat (2 * r) - y)%nat) (d := y); [done|done|].
    replace (Z.of_nat (Z.to_nat (2 * r) - y) - r)
      with (- (Z.of_nat y - r)) by lia.
    lia.
Qed.

Lemma kernel_symmetric_witness :
  0 <= 2 /\ Z.of_nat 1 <= 2 * 2 /\ Z.of_nat 4 <= 2 * 2 /\
  getpixel (create_circular_kernel 2) 4 1
  = getpixel (create_circular_kernel 2) 1 4.
Proof.
  assert (0 <= 2) as Hr by lia.
  assert (Z.of_nat 1 <= 2 * 2) as Hx by (simpl; lia).
  assert (Z.of_nat 4 <= 2 * 2) as Hy by (simpl; lia).
  repeat (split; [assumption|]).
  by destruct (kernel_symmetric 2 1 4 Hr Hx Hy) as (_ & _ & Ht & _).
Defined.

(** X2: for a radius [r >= 1] the kernel is a rounded shape and not the
    full square: the ends of its two axes are set, its four corners are
    not. *)
Theorem kernel_rounded (r : Z) :
  1 <= r ->
  let kernel := create_circular_kernel r in
  let R := Z.to_nat r in
  let D := Z.to_nat (2 * r) in
  (getpixel kernel 0 R = Some 1 /\ getpixel kernel D R = Some 1
   /\ getpixel kernel R 0 = Some 1 /\ getpixel kernel R D = Some 1) /\
  (getpixel kernel 0 0 = Some 0 /\ getpixel kernel D 0 = Some 0
   /\ getpixel kernel 0 D = Some 0 /\ getpixel kernel D D = Some 0).
Proof.
  intros Hr kernel R D. subst kernel R D.
  assert (forall x y : nat,
    Z.of_nat x <= 2 * r -> Z.of_nat y <= 2 * r ->
    getpixel (create_circular_kernel r) x y
    = Some (if decide ((Z.of_nat x - r) ^ 2 + (Z.of_nat y - r) ^ 2 <= r * r)
            then 1 else 0)) as Hcell.
  { intros x y Hx Hy. rewrite getpixel_kernel, decide_True by lia.
    pose proof (kernel_cell_iff r x y) as Hiff.
    destruct (kernel_cell r x y); case_decide; try done.
    - destruct (proj1 Hiff eq_refl). lia.
    - assert (false = true) by (apply Hiff; split; [lia|done]). done. }
  rewrite !Hcell by lia.
  repeat split; f_equal.
  all: try (rewrite decide_True; [done|rewrite ?Z2Nat.id by lia; nia]).
  all: rewrite decide_False; [done|rewrite ?Z2Nat.id by lia; simpl; nia].
Qed.

Lemma kernel_rounded_witness :
  1 <= 1 /\ getpixel (create_circular_kernel 1) 0 0 = Some 0
  /\ getpixel (create_circular_kernel 1) 0 1 = Some 1.
Proof.
  assert (1 <= 1) as Hr by lia.
  split; [exact Hr|].
  destruct (kernel_rounded 1 Hr) as ((Hl & _) & (Hc & _)).
  split; [exact Hc|exact Hl].
Defined.

(** ** Dilation as reach *)

(** A cell of the dilation by [r >= 0] is set exactly when it lies inside
    the mask and some set cell of the mask is within distance [r] of it. *)
Lemma mask_at_dilate_reach (m : band) (r : Z) (X Y : Z) :
  wf_raster m -> 0 <= r ->
  mask_at (dilate_with_circular_kernel m r) X Y = true
  <-> (0 <= X < Z.of_nat (xsize m) /\ 0 <= Y < Z.of_nat (ysize m))
      /\ exists X' Y', mask_at m X' Y' = true
                       /\ (X' - X) ^ 2 + (Y' - Y) ^ 2 <= r * r.
Proof.
  intros Hwf Hr. destruct (decide (r = 0)) as [->|Hne].
  { change (dilate_with_circular_kernel m 0) with m. split.
    - intros Hm. split; [by apply mask_at_inside|].
      exists X, Y. split; [done|]. nia.
    - intros (_ & X' & Y' & Hm & Hd).
      assert (X' = X) as -> by nia. assert (Y' = Y) as -> by nia. done. }
  rewrite mask_at_dilate by (done || lia).
  rewrite overlap_at_true by (done || lia). split.
  - intros (Hin & dx & dy & Hd & Hcell & Hm). split; [done|].
    apply kernel_cell_iff in Hcell as [_ Hcell].
    eexists _, _. split; [exact Hm|].
    rewrite !Z2Nat.id by lia.
    replace (X + Z.of_nat dx - r - X) with (Z.of_nat dx - r) by lia.
    replace (Y + Z.of_nat dy - r - Y) with (Z.of_nat dy - r) by lia.
    done.
  - intros (Hin & X' & Y' & Hm & Hd). split; [done|].
    assert (- r <= X' - X <= r) as HX by nia.
    assert (- r <= Y' - Y <= r) as HY by nia.
    exists (Z.to_nat (X' - X + r)), (Z.to_nat (Y' - Y + r)).
    split; [lia|]. split.
    + apply kernel_cell_iff. split; [lia|].
      rewrite !Z2Nat.id by lia.
      replace (X' - X + r - r) with (X' - X) by lia.
      by replace (Y' - Y + r - r) with (Y' - Y) by lia.
    + rewrite !Z2Nat.id by lia.
      replace (X + (X' - X + r) - r) with X' by lia.
      by replace (Y + (Y' - Y + r) - r) with Y' by lia.
Qed.

(** X3: whatever values the mask holds, its dilation by a radius [r > 0]
    is a binary image: every cell is 0 or 255. *)
Theorem dilate_binary (m : band) (r : Z) (x y : nat) (v : Z) :
  wf_raster m -> 0 < r ->
  getpixel (dilate_with_circular_kernel m r) x y = Some v ->
  v = 0 \/ v = 255.
Proof.
  intros Hwf Hr. rewrite getpixel_dilate by done.
  case_decide; [|done]. intros [= <-].
  destruct (overlap_at m r y x); [by right|by left].
Qed.

Lemma dilate_binary_witness :
  wf_raster (Raster 2 1 [[7; 0]]) /\ 0 < 1 /\
  getpixel (dilate_with_circular_kernel (Raster 2 1 [[7; 0]]) 1) 0 0
  = Some 255.
Proof.
  assert (wf_raster (Raster 2 1 [[7; 0]])) as Hwf by solve_wf.
  assert (0 < 1) as Hr by lia.
  split; [exact Hwf|]. split; [exact Hr|].
  destruct (getpixel (dilate_with_circular_kernel (Raster 2 1 [[7; 0]]) 1) 0 0)
    as [v|] eqn:Hv; [|vm_compute in Hv; discriminate].
  destruct (dilate_binary _ 1 0%nat 0%nat v Hwf Hr Hv) as [-> | ->];
    [vm_compute in Hv; discriminate|done].
Defined.

(** X4: the dilation by [r >= 0] reaches exactly distance [r]: a cell
    inside the mask is set in the dilation iff a set cell of the mask lies
    within Euclidean distance [r] of it; so a mask without a set cell has a
    dilation without a set cell. *)
Theorem dilate_reach (m : band) (r : Z) :
  wf_raster m -> 0 <= r ->
  (forall x y : nat, (x < xsize m)%nat -> (y < ysize m)%nat ->
     mask_at (dilate_with_circular_kernel m r) (Z.of_nat x) (Z.of_nat y) = true
     <-> exists x' y' : nat,
           mask_at m (Z.of_nat x') (Z.of_nat y') = true
           /\ (Z.of_nat x' - Z.of_nat x) ^ 2 + (Z.of_nat y' - Z.of_nat y) ^ 2
              <= r * r) /\
  ((forall X Y, mask_at m X Y = false) ->
   forall X Y, mask_at (dilate_with_circular_kernel m r) X Y = false).
Proof.
  intros Hwf Hr. split.
  - intros x y Hx Hy. rewrite mask_at_dilate_reach by done. split.
    + intros (_ & X' & Y' & Hm & Hd).
      pose proof (mask_at_inside _ _ _ Hwf Hm) as [HX' HY'].
      exists (Z.to_nat X'), (Z.to_nat Y'). by rewrite !Z2Nat.id by lia.
    + intros (x' & y' & Hm & Hd). split; [lia|]. eauto.
  - intros Hempty X Y.
    destruct (mask_at (dilate_with_circular_kernel m r) X Y) eqn:Hd; [|done].
    apply mask_at_dilate_reach in Hd as (_ & X' & Y' & Hm & _); [|done|done].
    by rewrite Hempty in Hm.
Qed.

Lemma dilate_reach_witness :
  wf_raster dot_mask /\ 0 <= 1 /\
  mask_at (dilate_with_circular_kernel dot_mask 1) 0 0 = false.
Proof.
  assert (wf_raster dot_mask) as Hwf by solve_wf.
  assert (0 <= 1) as Hr by lia.
  split; [exact Hwf|]. split; [exact Hr|].
  destruct (dilate_reach dot_mask 1 Hwf Hr) as [Hreach _].
  destruct (mask_at (dilate_with_circular_kernel dot_mask 1) 0 0) eqn:Hd;
    [|done].
  apply (Hreach 0%nat 0%nat) in Hd as (x' & y' & Hm & Hdist);
    [|simpl; lia|simpl; lia].
  apply (mask_at_inside _ _ _ Hwf) in Hm as Hin. simpl in Hin.
  assert (x' < 3)%nat as Hx' by lia. assert (y' < 3)%nat as Hy' by lia.
  destruct x' as [|[|[|?]]]; [| | |lia];
    (destruct y' as [|[|[|?]]]; [| | |lia]);
    vm_compute in Hm; try discriminate; vm_compute in Hdist; by destruct Hdist.
Defined.

(** X5: dilation grows with the mask and distributes over the union of
    masks: if the set cells of [m3] are those of [m1] and of [m2], masks of
    one size, then the set cells of the dilation of [m3] are those of the
    dilations of [m1] and of [m2]. *)
Theorem dilate_union (m1 m2 m3 : band) (r : Z) :
  wf_raster m1 -> wf_raster m2 -> wf_raster m3 ->
  xsize m1 = xsize m3 -> ysize m1 = ysize m3 ->
  xsize m2 = xsize m3 -> ysize m2 = ysize m3 ->
  (forall X Y, mask_at m3 X Y = mask_at m1 X Y || mask_at m2 X Y) ->
  forall X Y,
    mask_at (dilate_with_circular_kernel m3 r) X Y
    = mask_at (dilate_with_circular_kernel m1 r) X Y
      || mask_at (dilate_with_circular_kernel m2 r) X Y.
Proof.
  intros Hwf1 Hwf2 Hwf3 Hx1 Hy1 Hx2 Hy2 Hunion X Y.
  destruct (decide (r <= 0)) as [Hr|Hr].
  { unfold dilate_with_circular_kernel.
    replace (r <=? 0) with true by (symmetry; apply Z.leb_le; lia).
    apply Hunion. }
  apply eq_true_iff_eq. rewrite orb_true_iff.
  rewrite !mask_at_dilate_reach by (done || lia).
  rewrite Hx1, Hy1, Hx2, Hy2. split.
  - intros (Hin & X' & Y' & Hm & Hd). rewrite Hunion in Hm.
    apply orb_true_iff in Hm as [Hm|Hm]; [left|right]; eauto 10.
  - intros [(Hin & X' & Y' & Hm & Hd)|(Hin & X' & Y' & Hm & Hd)];
      (split; [done|]); exists X', Y'; (split; [|done]);
      rewrite Hunion, Hm; [done|apply orb_true_r].
Qed.

Lemma dilate_union_witness :
  mask_at (dilate_with_circular_kernel
             (Raster 3 1 [[255; 0; 255]]) 1) 1 0
  = mask_at (dilate_with_circular_kernel (Raster 3 1 [[255; 0; 0]]) 1) 1 0
    || mask_at (dilate_with_circular_kernel (Raster 3 1 [[0; 0; 255]]) 1) 1 0.
Proof.
  apply (dilate_union (Raster 3 1 [[255; 0; 0]]) (Raster 3 1 [[0; 0; 255]])
           (Raster 3 1 [[255; 0; 255]]) 1); try solve_wf.
  intros X Y. unfold mask_at, getpixel, get2. simpl.
  destruct (0 <=? X) eqn:HX, (0 <=? Y) eqn:HY; simpl; try done.
  destruct (Z.to_nat Y) as [|?]; simpl; [|done].
  destruct (Z.to_nat X) as [|[|[|?]]]; done.
Defined.

(** The triangle inequality on the integer grid. *)
Lemma distance_triangle (a b c d r1 r2 : Z) :
  0 <= r1 -> 0 <= r2 ->
  a ^ 2 + b ^ 2 <= r1 * r1 -> c ^ 2 + d ^ 2 <= r2 * r2 ->
  (a + c) ^ 2 + (b + d) ^ 2 <= (r1 + r2) * (r1 + r2).
Proof.
  intros Hr1 Hr2 H1 H2. rewrite !Z.pow_2_r in *.
  assert ((a * c + b * d) * (a * c + b * d)
          <= (a * a + b * b) * (c * c + d * d)) as Hcs
    by (pose proof (Z.square_nonneg (a * d - b * c)); lia).
  assert ((a * a + b * b) * (c * c + d * d) <= (r1 * r1) * (r2 * r2)) as Hp
    by (apply Z.mul_le_mono_nonneg; nia).
  assert (a * c + b * d <= r1 * r2) as Hdot.
  { apply Z.square_le_simpl_nonneg; [nia|lia]. }
  lia.
Qed.

(** X6: two dilations in a row stay within the dilation by the sum of the
    radii: every cell set in the dilation by [r2] of the dilation by [r1]
    is set in the dilation by [r1 + r2]. *)
Theorem dilate_twice (m : band) (r1 r2 : Z) :
  wf_raster m -> 0 <= r1 -> 0 <= r2 ->
  forall X Y,
    mask_at (dilate_with_circular_kernel
               (dilate_with_circular_kernel m r1) r2) X Y = true ->
    mask_at (dilate_with_circular_kernel m (r1 + r2)) X Y = true.
Proof.
  intros Hwf Hr1 Hr2 X Y Hd.
  pose proof (wf_dilate m r1 Hwf) as Hwf1.
  pose proof (dilate_size m r1 Hwf) as [Hx Hy].
  apply mask_at_dilate_reach in Hd as (Hin & X1 & Y1 & Hd1 & Hdist2);
    [|done|done].
  apply mask_at_dilate_reach in Hd1 as (_ & X0 & Y0 & Hm & Hdist1);
    [|done|done].
  apply mask_at_dilate_reach; [done|lia|].
  rewrite Hx, Hy in Hin. split; [done|].
  exists X0, Y0. split; [done|].
  replace (X0 - X) with ((X0 - X1) + (X1 - X)) by lia.
  replace (Y0 - Y) with ((Y0 - Y1) + (Y1 - Y)) by lia.
  by apply distance_triangle.
Qed.

Lemma dilate_twice_witness :
  wf_raster dot_mask /\ 0 <= 1 /\ 0 <= 1 /\
  mask_at (dilate_with_circular_kernel dot_mask (1 + 1)) 0 0 = true.
Proof.
  assert (wf_raster dot_mask) as Hwf by solve_wf.
  assert (0 <= 1) as Hr by lia.
  split; [exact Hwf|]. split; [exact Hr|]. split; [exact Hr|].
  apply (dilate_twice dot_mask 1 1 Hwf Hr Hr 0 0). reflexivity.
Defined.

(** ** What the alpha normaliser leaves behind *)

(** Two pixel maps that agree on the pixels of an image give one image. *)
Lemma raster_map_ext {A B} (f g : A -> B) (img : raster A) :
  (forall x y p, getpixel img x y = Some p -> f p = g p) ->
  raster_map f img = raster_map g img.
Proof.
  intros Hfg. unfold raster_map. f_equal.
  apply list_eq. intros y. rewrite !list_lookup_fmap.
  destruct (cells img !! y) as [row|] eqn:Hrow; [|done]. simpl. f_equal.
  apply list_eq. intros x. rewrite !list_lookup_fmap.
  destruct (row !! x) as [p|] eqn:Hp; [|done]. simpl. f_equal.
  apply (Hfg x y). unfold getpixel, get2. by rewrite Hrow.
Qed.

Lemma raster_map_id {A} (f : A -> A) (img : raster A) :
  (forall x y p, getpixel img x y = Some p -> f p = p) ->
  raster_map f img = img.
Proof.
  intros Hf. rewrite (raster_map_ext f id) by done.
  unfold raster_map. destruct img as [w h c]. simpl. f_equal.
  rewrite <- (list_fmap_id c) at 2. apply list_fmap_ext.
  intros i row _. apply list_fmap_id.
Qed.

(** X7: after the pass every pixel is either opaque grey, [(a, a, a, 255)],
    or a pixel of the input left as it was whose alpha is below the
    threshold or not above zero; with a threshold of at most 1 no pixel
    with an alpha strictly between 0 and 255 is left. *)
Theorem normalize_leaves (img : image) (threshold : Z) (x y : nat) (q : pixel) :
  wf_raster img ->
  getpixel (remove_partial_transparency img threshold) x y = Some q ->
  ((alpha q = 255 /\ red q = green q /\ green q = blue q)
   \/ (getpixel img x y = Some q /\ (alpha q < threshold \/ alpha q <= 0)))
  /\ (threshold <= 1 -> alpha q <= 0 \/ alpha q = 255).
Proof.
  intros Hwf. rewrite getpixel_normalize by done.
  destruct (getpixel img x y) as [p|]; [|done]. simpl. intros [= <-].
  unfold normalize_pixel.
  destruct ((alpha p >=? threshold) && (alpha p >? 0)) eqn:Hc; simpl.
  - split; [by left|]. by right.
  - apply andb_false_iff in Hc.
    assert (alpha p < threshold \/ alpha p <= 0) as Hlow.
    { destruct Hc as [Hc|Hc].
      - left. rewrite Z.geb_leb in Hc. apply Z.leb_gt in Hc. lia.
      - right. rewrite Z.gtb_ltb in Hc. apply Z.ltb_ge in Hc. lia. }
    split; [by right|]. lia.
Qed.

Lemma normalize_leaves_witness :
  wf_raster two_pixels /\
  (getpixel two_pixels 1 0 = Some (RGBA 100 150 200 64) /\ 64 < 128).
Proof.
  assert (wf_raster two_pixels) as Hwf by solve_wf.
  split; [exact Hwf|].
  destruct (normalize_leaves two_pixels 128 1 0 (RGBA 100 150 200 64) Hwf
              eq_refl) as [[(Ha & _)|(Hp & Hlow)] _].
  - simpl in Ha. lia.
  - split; [exact Hp|]. simpl in Hlow. lia.
Defined.

(** X8: the pass never changes which pixels are visible: the mask of the
    pixels with alpha above zero, from which the outline is drawn, is the
    same before and after, and a pixel with alpha zero is never touched,
    whatever the threshold. *)
Theorem normalize_keeps_mask (img : image) (threshold : Z) :
  wf_raster img ->
  alpha_mask (remove_partial_transparency img threshold) = alpha_mask img /\
  (forall x y p, getpixel img x y = Some p -> alpha p <= 0 ->
     getpixel (remove_partial_transparency img threshold) x y = Some p).
Proof.
  intros Hwf. rewrite remove_partial_transparency_map by done. split.
  - unfold alpha_mask.
    apply raster_ext; try (by repeat apply wf_raster_map).
    intros x y. rewrite !getpixel_map.
    destruct (getpixel img x y) as [p|]; [|done]. simpl. f_equal.
    unfold normalize_pixel.
    destruct ((alpha p >=? threshold) && (alpha p >? 0)) eqn:Hc; [|done].
    apply andb_true_iff in Hc as [_ Hc]. by rewrite Hc.
  - intros x y p Hp Ha. rewrite getpixel_map, Hp. simpl. f_equal.
    unfold normalize_pixel.
    replace (alpha p >? 0) with false
      by (symmetry; rewrite Z.gtb_ltb; apply Z.ltb_ge; lia).
    by rewrite andb_false_r.
Qed.

Lemma normalize_keeps_mask_witness :
  wf_raster dot_image /\
  alpha_mask (remove_partial_transparency dot_image 0) = alpha_mask dot_image.
Proof.
  assert (wf_raster dot_image) as Hwf by solve_wf.
  split; [exact Hwf|]. apply (normalize_keeps_mask dot_image 0 Hwf).
Defined.

(** X9: the pass is stable from its second application on: for a
    threshold of at most 255 a third pass gives what the second gave. *)
Theorem normalize_thrice (img : image) (threshold : Z) :
  wf_raster img -> threshold <= 255 ->
  let once := remove_partial_transparency img threshold in
  let twice := remove_partial_transparency once threshold in
  remove_partial_transparency twice threshold = twice.
Proof.
  intros Hwf Ht once twice.
  assert (wf_raster once) as Hwf1 by by apply wf_remove_partial_transparency.
  assert (wf_raster twice) as Hwf2 by by apply wf_remove_partial_transparency.
  rewrite (remove_partial_transparency_map twice) by done.
  apply raster_map_id. intros x y q. subst twice once.
  rewrite !getpixel_normalize by done.
  destruct (getpixel img x y) as [p|]; [|done]. simpl. intros [= <-].
  rewrite normalize_pixel_twice by done.
  unfold normalize_pixel.
  destruct ((alpha p >=? threshold) && (alpha p >? 0)) eqn:Hc; simpl.
  - by replace (255 >=? threshold) with true
      by (symmetry; apply Z.geb_le; lia).
  - by rewrite Hc.
Qed.

Lemma normalize_thrice_witness :
  wf_raster two_pixels /\ 128 <= 255 /\
  remove_partial_transparency
    (remove_partial_transparency
       (remove_partial_transparency two_pixels 128) 128) 128
  = remove_partial_transparency
      (remove_partial_transparency two_pixels 128) 128.
Proof.
  assert (wf_raster two_pixels) as Hwf by solve_wf.
  assert (128 <= 255) as Ht by lia.
  split; [exact Hwf|]. split; [exact Ht|].
  apply (normalize_thrice two_pixels 128 Hwf Ht).
Defined.

(** X10: the ends of the threshold's range: every threshold of at most 1,
    the default 0 among them, converts exactly the pixels with alpha above
    zero, and on an 8-bit image a threshold above 255 converts nothing and
    returns the image as it was. *)
Theorem normalize_threshold_ends (img : image) (threshold : Z) :
  wf_raster img ->
  (threshold <= 1 ->
   remove_partial_transparency img threshold
   = remove_partial_transparency img 0) /\
  (valid_image img -> 255 < threshold ->
   remove_partial_transparency img threshold = img).
Proof.
  intros Hwf. rewrite !remove_partial_transparency_map by done. split.
  - intros Ht. apply raster_map_ext. intros x y p _. unfold normalize_pixel.
    destruct (alpha p >? 0) eqn:Ha; [|by rewrite !andb_false_r].
    apply Z.gtb_lt in Ha.
    replace (alpha p >=? threshold) with true
      by (symmetry; apply Z.geb_le; lia).
    by replace (alpha p >=? 0) with true by (symmetry; apply Z.geb_le; lia).
  - intros Hv Ht. apply raster_map_id. intros x y p Hp.
    pose proof (valid_image_pixel _ _ _ _ Hv Hp) as (_ & _ & _ & Ha).
    unfold byte_range in Ha. unfold normalize_pixel.
    by replace (alpha p >=? threshold) with false
      by (symmetry; rewrite Z.geb_leb; apply Z.leb_gt; lia).
Qed.

Lemma normalize_threshold_ends_witness :
  wf_raster two_pixels /\ valid_image two_pixels /\ 255 < 256 /\
  remove_partial_transparency two_pixels 256 = two_pixels.
Proof.
  assert (wf_raster two_pixels) as Hwf by solve_wf.
  assert (valid_image two_pixels) as Hv by solve_wf.
  assert (255 < 256) as Ht by lia.
  split; [exact Hwf|]. split; [exact Hv|]. split; [exact Ht|].
  apply (normalize_threshold_ends two_pixels 256 Hwf); assumption.
Defined.

(** ** The outline's footprint *)

Lemma getpixel_outside {A} (g : raster A) x y :
  wf_raster g -> ~ (x < xsize g /\ y < ysize g)%nat -> getpixel g x y = None.
Proof.
  intros Hwf Hout. destruct (getpixel g x y) as [v|] eqn:Hv; [|done].
  by apply getpixel_Some in Hv.
Qed.

Lemma wf_alpha_mask (img : image) : wf_raster img -> wf_raster (alpha_mask img).
Proof. intros Hwf. unfold alpha_mask. by do 2 apply wf_raster_map. Qed.

(** X11: a width of zero or less draws no outline, whatever colour
    [Image.new] is given and takes: every pixel with alpha above zero is
    kept and every fully transparent pixel comes out as [(0, 0, 0, 0)],
    the colour stored under its zero alpha being dropped.  The colour is
    converted all the same, and one that [Image.new] does not take raises
    its error at this width too. *)
Theorem add_outline_no_width (img : image) (width_px : Z) (color : pixel) :
  valid_image img -> width_px <= 0 ->
  add_outline img width_px color
  = match ink color with
    | Ok _ =>
        Ok (raster_map (fun p => if alpha p >? 0 then p else transparent) img)
    | Raise e => Raise e
    end.
Proof.
  intros Hv Hw. pose proof (proj1 Hv) as Hwf.
  rewrite add_outline_draw, ink_c_color.
  destruct (c_color color); [|done]. f_equal.
  generalize (clipped color). clear color. intros color.
  apply raster_ext; try done.
  - by apply wf_add_outline.
  - by apply wf_raster_map.
  - intros x y. rewrite getpixel_map.
    destruct (getpixel img x y) as [p|] eqn:Hp.
    + destruct (getpixel_add_outline img width_px color x y p Hwf Hp)
        as (d & Hd & ->).
      simpl. f_equal.
      pose proof (valid_image_pixel _ _ _ _ Hv Hp) as Hvp.
      unfold dilate_with_circular_kernel in Hd.
      replace (width_px <=? 0) with true in Hd
        by (symmetry; apply Z.leb_le; lia).
      unfold alpha_mask in Hd. rewrite !getpixel_map, Hp in Hd.
      simpl in Hd. injection Hd as <-.
      assert (paste_pixel transparent color
                (if ((if alpha p >? 0 then 255 else 0) >? 0)
                    && ((if alpha p >? 0 then 255 else 0) =? 0)
                 then 255 else 0) = transparent) as ->.
      { destruct (alpha p >? 0); simpl;
          apply paste_pixel_0; unfold valid_pixel, byte_range; simpl; lia. }
      rewrite (composite_pixel_clear transparent transparent) by done.
      destruct (alpha p >? 0) eqn:Ha.
      * apply Z.gtb_lt in Ha.
        by rewrite composite_pixel_over_transparent by (done || lia).
      * rewrite Z.gtb_ltb in Ha. apply Z.ltb_ge in Ha.
        apply composite_pixel_clear.
        destruct Hvp as (_ & _ & _ & [Hlo _]). lia.
    + simpl. apply getpixel_outside; [by apply wf_add_outline|].
      simpl. intros [Hx Hy].
      destruct (getpixel_is_Some img x y Hwf Hx Hy) as [q Hq]. congruence.
Qed.

Lemma add_outline_no_width_witness :
  valid_image dot_image /\ 0 <= 0 /\
  add_outline dot_image 0 (RGBA 1 2 3 255)
  = Ok (raster_map (fun p => if alpha p >? 0 then p else transparent)
          dot_image).
Proof.
  assert (valid_image dot_image) as Hv by solve_wf.
  assert (0 <= 0) as Hw by lia.
  split; [exact Hv|]. split; [exact Hw|].
  exact (add_outline_no_width dot_image 0 (RGBA 1 2 3 255) Hv Hw).
Defined.

(** X12: with an outline colour that is not fully transparent the visible
    region of the result, its pixels with alpha above zero, is exactly the
    dilation of the visible region of the image. *)
Theorem add_outline_visible (img : image) (width_px : Z) (color : pixel) :
  valid_image img -> valid_pixel color -> alpha color > 0 ->
  exists out,
    add_outline img width_px color = Ok out /\
    forall X Y,
      mask_at (alpha_mask out) X Y
      = mask_at (dilate_with_circular_kernel (alpha_mask img) width_px) X Y.
Proof.
  intros Hv Hc Hac. exists (draw_outline img width_px color).
  split; [by rewrite add_outline_draw, c_color_valid, clipped_valid|].
  intros X Y. pose proof (proj1 Hv) as Hwf.
  pose proof (wf_alpha_mask img Hwf) as Hwfm.
  pose proof (wf_dilate (alpha_mask img) width_px Hwfm) as Hwfd.
  pose proof (dilate_size (alpha_mask img) width_px Hwfm) as [Hdx Hdy].
  destruct (decide (0 <= X /\ 0 <= Y)) as [[HX HY]|Hneg].
  2:{ unfold mask_at.
      destruct (0 <=? X) eqn:HX, (0 <=? Y) eqn:HY; simpl; try done.
      apply Z.leb_le in HX. apply Z.leb_le in HY. lia. }
  rewrite <- (Z2Nat.id X), <- (Z2Nat.id Y) by done.
  set (x := Z.to_nat X). set (y := Z.to_nat Y).
  destruct (getpixel img x y) as [p|] eqn:Hp.
  - rewrite (mask_at_alpha_mask _ x y
               (if alpha p >? 0 then p
                else if mask_at (dilate_with_circular_kernel (alpha_mask img)
                                   width_px) (Z.of_nat x) (Z.of_nat y)
                        && (alpha color >? 0)
                     then color else transparent)).
    2:{ destruct (alpha p >? 0) eqn:Ha.
        - apply add_outline_keeps; [done|done|]. apply Z.gtb_lt in Ha. lia.
        - apply (add_outline_fills img width_px color x y p); [done|done|done|].
          rewrite Z.gtb_ltb in Ha. apply Z.ltb_ge in Ha.
          pose proof (valid_image_pixel _ _ _ _ Hv Hp) as (_ & _ & _ & [? _]).
          lia. }
    destruct (alpha p >? 0) eqn:Ha.
    + rewrite Ha. symmetry.
      assert (mask_at (alpha_mask img) (Z.of_nat x) (Z.of_nat y) = true) as Hm
        by by rewrite (mask_at_alpha_mask img x y p).
      destruct (decide (0 <= width_px)) as [Hw|Hw].
      * by apply dilate_keeps.
      * unfold dilate_with_circular_kernel.
        by replace (width_px <=? 0) with true
          by (symmetry; apply Z.leb_le; lia).
    + assert ((alpha color >? 0) = true) as Hpos by (apply Z.gtb_lt; lia).
      rewrite Hpos, andb_true_r.
      by destruct (mask_at (dilate_with_circular_kernel (alpha_mask img)
                              width_px) (Z.of_nat x) (Z.of_nat y)).
  - assert (~ (x < xsize img /\ y < ysize img)%nat) as Hout.
    { intros [Hx Hy]. destruct (getpixel_is_Some img x y Hwf Hx Hy) as [q Hq]. congruence. }
    unfold mask_at. rewrite !Nat2Z.id.
    rewrite (getpixel_outside (alpha_mask _)), getpixel_outside; try done.
    + by rewrite Hdx, Hdy.
    + by apply wf_alpha_mask, wf_add_outline.
Qed.

Lemma add_outline_visible_witness :
  valid_image dot_image /\ valid_pixel (RGBA 1 2 3 77) /\ 77 > 0 /\
  exists out,
    add_outline dot_image 1 (RGBA 1 2 3 77) = Ok out /\
    mask_at (alpha_mask out) 1 0 = true.
Proof.
  assert (valid_image dot_image) as Hv by solve_wf.
  assert (valid_pixel (RGBA 1 2 3 77)) as Hc by solve_wf.
  assert (77 > 0) as Ha by lia.
  split; [exact Hv|]. split; [exact Hc|]. split; [exact Ha|].
  destruct (add_outline_visible dot_image 1 (RGBA 1 2 3 77) Hv Hc Ha)
    as (out & Hout & Hmask).
  exists out. split; [exact Hout|]. by rewrite (Hmask 1 0).
Defined.

(** ** Brightness out of range *)

(** X13: the brightness is clamped to -100..100 before anything else: a
    value of -100 or less acts as -100, a value of 100 or more as 100, and
    0 hands back the image itself. *)
Theorem adjust_brightness_clamped `{imaging} (img : image) (brightness : Z) :
  (brightness <= -100 ->
   adjust_brightness img brightness = adjust_brightness img (-100)) /\
  (100 <= brightness ->
   adjust_brightness img brightness = adjust_brightness img 100) /\
  adjust_brightness img 0 = img.
Proof.
  split; [|split; [|done]]; intros Hb; unfold adjust_brightness.
  - by replace (Z.max (-100) (Z.min 100 brightness)) with (-100) by lia.
  - by replace (Z.max (-100) (Z.min 100 brightness)) with 100 by lia.
Qed.

Lemma adjust_brightness_clamped_witness :
  -250 <= -100 /\
  adjust_brightness (H := sample_imaging) two_pixels (-250)
  = Raster 2 1 [[RGBA 0 0 0 200; RGBA 0 0 0 64]].
Proof.
  assert (-250 <= -100) as Hb by lia.
  split; [exact Hb|].
  by rewrite (proj1 (adjust_brightness_clamped (H := sample_imaging)
                       two_pixels (-250)) Hb).
Defined.

(** ** The outline string *)

(** A property of characters that holds for each of the 256 of them. *)
Lemma forall_chars (P : ascii -> bool) :
  forallb (fun n => P (ascii_of_nat n)) (seq 0 256) = true ->
  forall c, P c = true.
Proof.
  intros Hall c. rewrite <- (ascii_nat_embedding c).
  apply (proj1 (forallb_forall _ _) Hall).
  apply in_seq. pose proof (nat_ascii_bounded c). lia.
Qed.

Lemma decimal_char c :
  isdecimal c = true ->
  isspace c = false /\ isdot c = true /\ 0 <= digit_value c <= 9.
Proof.
  intros Hc.
  pose proof (forall_chars (fun c => implb (isdecimal c)
    (negb (isspace c) && isdot c && (0 <=? digit_value c)
     && (digit_value c <=? 9))) ltac:(by vm_compute) c) as Hall.
  cbv beta in Hall. rewrite Hc in Hall. simpl in Hall.
  rewrite !andb_true_iff, negb_true_iff, !Z.leb_le in Hall.
  destruct Hall as [[[? ?] ?] ?]. repeat split; assumption.
Qed.

Lemma hex_char c v :
  hex_value c = Some v ->
  isspace c = false /\ isdot c = true /\ (code c =? 35)%nat = false
  /\ 0 <= v <= 15.
Proof.
  intros Hc.
  pose proof (forall_chars (fun c =>
    match hex_value c with
    | Some v => negb (isspace c) && isdot c && negb (code c =? 35)%nat
                && (0 <=? v) && (v <=? 15)
    | None => true
    end) ltac:(by vm_compute) c) as Hall.
  cbv beta in Hall. rewrite Hc in Hall.
  rewrite !andb_true_iff, !negb_true_iff, !Z.leb_le in Hall.
  destruct Hall as [[[[? ?] ?] ?] ?]. repeat split; assumption.
Qed.

Lemma space_char c :
  isspace c = true ->
  isdecimal c = false /\ (code c =? 44)%nat = false.
Proof.
  intros Hc.
  pose proof (forall_chars (fun c => implb (isspace c)
    (negb (isdecimal c) && negb (code c =? 44)%nat))
    ltac:(by vm_compute) c) as Hall.
  cbv beta in Hall. rewrite Hc in Hall. simpl in Hall.
  rewrite !andb_true_iff, !negb_true_iff in Hall.
  destruct Hall as [? ?]. split; assumption.
Qed.

Section scanning.
Variable p : ascii -> bool.

Lemma take_while_app l t :
  forallb p l = true -> take_while p (l ++ t) = l ++ take_while p t.
Proof.
  induction l as [|c l IH]; simpl; [done|].
  intros [Hc Hl]%andb_true_iff. by rewrite Hc, IH.
Qed.

Lemma drop_while_app l t :
  forallb p l = true -> drop_while p (l ++ t) = drop_while p t.
Proof.
  induction l as [|c l IH]; simpl; [done|].
  intros [Hc Hl]%andb_true_iff. by rewrite Hc, IH.
Qed.

Lemma take_while_all l : forallb p l = true -> take_while p l = l.
Proof.
  intros Hl. rewrite <- (app_nil_r l) at 1.
  rewrite take_while_app by done. apply app_nil_r.
Qed.

Lemma drop_while_all l : forallb p l = true -> drop_while p l = [].
Proof.
  intros Hl. rewrite <- (app_nil_r l). by rewrite drop_while_app.
Qed.

Lemma forallb_take_while l : forallb p (take_while p l) = true.
Proof.
  induction l as [|c l IH]; simpl; [done|].
  destruct (p c) eqn:Hc; simpl; [by rewrite Hc|done].
Qed.

(** Dropping a prefix leaves the given suffix, or a part of it when the
    whole list before it went. *)
Lemma drop_while_suffix l b :
  forallb p b = true ->
  exists b', forallb p b' = true /\ drop_while p (l ++ b) = drop_while p l ++ b'.
Proof.
  intros Hb. induction l as [|c l IH]; simpl.
  - exists []. by rewrite drop_while_all.
  - destruct (p c); [done|]. by exists b.
Qed.
End scanning.

(** [strip] does not see blanks around a string. *)
Lemma strip_blanks (b1 l b2 : list ascii) :
  forallb isspace b1 = true -> forallb isspace b2 = true ->
  strip (b1 ++ l ++ b2) = strip l.
Proof.
  intros Hb1 Hb2. unfold strip. rewrite drop_while_app by done.
  destruct (drop_while_suffix isspace l b2 Hb2) as (b' & Hb' & ->).
  rewrite rev_app_distr, drop_while_app; [done|].
  rewrite forallb_forall in *. intros c Hc. apply Hb'. by apply in_rev.
Qed.

(** [strip] leaves a string that neither starts nor ends with a blank. *)
Lemma strip_noop (c d : ascii) (l : list ascii) s :
  s = c :: l -> last s = Some d ->
  isspace c = false -> isspace d = false -> strip s = s.
Proof.
  intros -> Hlast Hc Hd. unfold strip. simpl. rewrite Hc.
  apply last_Some in Hlast as [l' Hl']. rewrite Hl'.
  rewrite rev_app_distr. simpl. rewrite Hd. simpl.
  by rewrite rev_involutive.
Qed.

Lemma decimal_value_nonneg (l : list ascii) :
  forallb isdecimal l = true -> 0 <= decimal_value l.
Proof.
  unfold decimal_value.
  assert (forall acc, 0 <= acc -> forallb isdecimal l = true ->
            0 <= foldl (fun acc c => acc * 10 + digit_value c) acc l) as Hfold.
  { induction l as [|c l IH]; simpl; intros acc Hacc Hl; [done|].
    apply andb_true_iff in Hl as [Hc Hl]. apply IH; [|done].
    apply decimal_char in Hc as (_ & _ & Hv). lia. }
  by apply Hfold.
Qed.

(** [int] converts a run of at most 4300 digits, and no longer one. *)
Lemma int10_short (l : list ascii) :
  Z.of_nat (length l) <= int_max_str_digits ->
  int10 l = Ok (decimal_value l).
Proof.
  intros Hl. unfold int10.
  by replace (int_max_str_digits <? Z.of_nat (length l)) with false
    by (symmetry; apply Z.ltb_ge; lia).
Qed.

Lemma int10_long (l : list ascii) :
  int_max_str_digits < Z.of_nat (length l) ->
  int10 l = Raise IntTooManyDigits.
Proof.
  intros Hl. unfold int10.
  by replace (int_max_str_digits <? Z.of_nat (length l)) with true
    by (symmetry; apply Z.ltb_lt; lia).
Qed.

Lemma int10_Ok (l : list ascii) v :
  int10 l = Ok v -> v = decimal_value l.
Proof. unfold int10. destruct (_ <? _); [done|]. by intros [= <-]. Qed.

(** The layout [re.match] reads: the digits of the width, an optional
    [px], at least one blank, and the colour up to the end. *)
Lemma match_outline_layout (digits px blanks col : list ascii) :
  digits <> [] -> forallb isdecimal digits = true ->
  px = [] \/ px = ["p"; "x"]%char ->
  blanks <> [] -> forallb isspace blanks = true ->
  col <> [] -> forallb isdot col = true ->
  (forall c t, col = c :: t -> isspace c = false) ->
  match_outline (digits ++ px ++ blanks ++ col) = Some (digits, col).
Proof.
  intros Hd0 Hd Hpx Hb0 Hb Hc0 Hdot Hhead. unfold match_outline.
  destruct blanks as [|b0 bs]; [done|]. clear Hb0.
  apply andb_true_iff in Hb as Hb'. destruct Hb' as [Hsp Hbs].
  destruct col as [|c0 col]; [done|]. clear Hc0.
  specialize (Hhead c0 col eq_refl).
  assert (take_while isdecimal (digits ++ px ++ (b0 :: bs) ++ c0 :: col)
          = digits) as ->.
  { rewrite take_while_app by done.
    destruct Hpx as [-> | ->]; simpl.
    - rewrite (proj1 (space_char _ Hsp)). apply app_nil_r.
    - apply app_nil_r. }
  assert (drop_while isdecimal (digits ++ px ++ (b0 :: bs) ++ c0 :: col)
          = px ++ (b0 :: bs) ++ c0 :: col) as ->.
  { rewrite drop_while_app by done.
    destruct Hpx as [-> | ->]; simpl; [|done].
    by rewrite (proj1 (space_char _ Hsp)). }
  destruct digits as [|d0 ds]; [done|].
  assert (match px ++ (b0 :: bs) ++ c0 :: col with
          | "p"%char :: "x"%char :: rest' => rest'
          | _ => px ++ (b0 :: bs) ++ c0 :: col
          end = (b0 :: bs) ++ c0 :: col) as ->.
  { destruct Hpx as [-> | ->]; [|done]. simpl.
    destruct b0 as [[] [] [] [] [] [] [] []];
      first [discriminate Hsp | reflexivity]. }
  rewrite take_while_app by done.
  simpl take_while at 1. rewrite Hhead, app_nil_r.
  simpl length. simpl match_blanks_rest.
  change (b0 :: bs ++ c0 :: col) with ((b0 :: bs) ++ c0 :: col).
  replace (drop (length bs) (bs ++ c0 :: col)) with (c0 :: col)
    by (by rewrite drop_app_length).
  rewrite take_while_all by done. done.
Qed.

(** A string of that layout is parsed into the value of its digits and
    the colour its last part gives. *)
Lemma parse_outline_arg_layout (digits px blanks col : list ascii) (d : ascii) :
  digits <> [] -> forallb isdecimal digits = true ->
  px = [] \/ px = ["p"; "x"]%char ->
  blanks <> [] -> forallb isspace blanks = true ->
  forallb isdot col = true ->
  (forall c t, col = c :: t -> isspace c = false) ->
  last col = Some d -> isspace d = false ->
  parse_outline_arg (string_of_list_ascii (digits ++ px ++ blanks ++ col))
  = (width ← int10 digits;
     if startswith ["#"%char] col then
       color ← parse_hex_color col; Ok (width, color)
     else if startswith ["r"%char; "g"%char; "b"%char] col then
       match match_rgb col with
       | None => Raise InvalidRgbColor
       | Some (group1, group2, group3, group4) =>
           r ← int10 group1;
           g ← int10 group2;
           b ← int10 group3;
           a ← match group4 with
               | Some digits => int10 digits
               | None => Ok 255
               end;
           Ok (width, RGBA r g b a)
       end
     else Raise UnknownColorFormat).
Proof.
  intros Hd0 Hd Hpx Hb0 Hb Hdot Hhead Hlast Hdsp.
  assert (col <> []) as Hc0 by (by intros ->).
  unfold parse_outline_arg. rewrite list_ascii_of_string_of_list_ascii.
  destruct digits as [|d0 ds] eqn:Hdigits; [done|]. rewrite <- Hdigits in *.
  assert (isspace d0 = false) as Hd0sp.
  { rewrite Hdigits in Hd. apply andb_true_iff in Hd as [Hd _].
    by apply decimal_char in Hd as (? & _). }
  rewrite (strip_noop d0 d (ds ++ px ++ blanks ++ col)); try done.
  2:{ by rewrite Hdigits. }
  2:{ destruct col as [|c0 col']; [done|].
      by rewrite !app_assoc, last_app_cons. }
  rewrite match_outline_layout by done.
  destruct col as [|c0 col'] eqn:Hcol; [done|]. rewrite <- Hcol in *.
  rewrite (strip_noop c0 d col'); try done.
  apply (Hhead c0 col'). done.
Qed.

Lemma not_space_dot c : isspace c = false -> isdot c = true.
Proof.
  intros Hc.
  pose proof (forall_chars (fun c => isspace c || isdot c)
                ltac:(by vm_compute) c) as Hall.
  cbv beta in Hall. by rewrite Hc in Hall.
Qed.

(** X14: a width of at most 4300 decimal digits, an optional [px],
    blanks, and [#] with six hexadecimal digits, in either case, parse to
    that width and to the three bytes of the digit pairs with alpha 255; a
    width of more digits is refused by [int]. *)
Theorem parse_hex_colour (digits px blanks : list ascii)
    (h1 h2 h3 h4 h5 h6 : ascii) (v1 v2 v3 v4 v5 v6 : Z) :
  digits <> [] -> forallb isdecimal digits = true ->
  px = [] \/ px = ["p"; "x"]%char ->
  blanks <> [] -> forallb isspace blanks = true ->
  hex_value h1 = Some v1 -> hex_value h2 = Some v2 ->
  hex_value h3 = Some v3 -> hex_value h4 = Some v4 ->
  hex_value h5 = Some v5 -> hex_value h6 = Some v6 ->
  let color := RGBA (v1 * 16 + v2) (v3 * 16 + v4) (v5 * 16 + v6) 255 in
  parse_outline_arg
    (string_of_list_ascii
       (digits ++ px ++ blanks ++ "#"%char :: [h1; h2; h3; h4; h5; h6]))
  = (if int_max_str_digits <? Z.of_nat (length digits)
     then Raise IntTooManyDigits
     else Ok (decimal_value digits, color))
  /\ 0 <= decimal_value digits /\ valid_pixel color.
Proof.
  intros Hd0 Hd Hpx Hb0 Hb H1 H2 H3 H4 H5 H6 color. subst color.
  pose proof (hex_char _ _ H1) as (Hs1 & Hdot1 & Hn1 & Hv1).
  pose proof (hex_char _ _ H2) as (Hs2 & Hdot2 & Hn2 & Hv2).
  pose proof (hex_char _ _ H3) as (Hs3 & Hdot3 & Hn3 & Hv3).
  pose proof (hex_char _ _ H4) as (Hs4 & Hdot4 & Hn4 & Hv4).
  pose proof (hex_char _ _ H5) as (Hs5 & Hdot5 & Hn5 & Hv5).
  pose proof (hex_char _ _ H6) as (Hs6 & Hdot6 & Hn6 & Hv6).
  split; [|split; [by apply decimal_value_nonneg|]].
  - rewrite (parse_outline_arg_layout digits px blanks _ h6); try done.
    + unfold int10. destruct (_ <? _); [done|].
      unfold parse_hex_color. simpl. rewrite Hn1. simpl.
      unfold int16_pair. by rewrite H1, H2, H3, H4, H5, H6.
    + simpl. by rewrite Hdot1, Hdot2, Hdot3, Hdot4, Hdot5, Hdot6.
    + by intros c t [= <- <-].
  - unfold valid_pixel, byte_range. simpl. lia.
Qed.

Lemma parse_hex_colour_witness :
  parse_outline_arg "14px #bdbabd" = Ok (14, RGBA 189 186 189 255).
Proof.
  apply (parse_hex_colour ["1"; "4"]%char ["p"; "x"]%char [" "]%char
           "b" "d" "b" "a" "b" "d" 11 13 11 10 11 13);
    first [done | by right].
Defined.

(** X15: the short form [#RGB] stands for [#RRGGBB]: a string with three
    characters after the [#] parses as the string with each of them
    doubled, to the same width and colour or to the same error. *)
Theorem parse_short_hex_doubles (digits px blanks : list ascii) (h1 h2 h3 : ascii) :
  digits <> [] -> forallb isdecimal digits = true ->
  px = [] \/ px = ["p"; "x"]%char ->
  blanks <> [] -> forallb isspace blanks = true ->
  isspace h1 = false -> isspace h2 = false -> isspace h3 = false ->
  (code h1 =? 35)%nat = false ->
  parse_outline_arg
    (string_of_list_ascii (digits ++ px ++ blanks ++ "#"%char :: [h1; h2; h3]))
  = parse_outline_arg
      (string_of_list_ascii
         (digits ++ px ++ blanks ++ "#"%char :: [h1; h1; h2; h2; h3; h3])).
Proof.
  intros Hd0 Hd Hpx Hb0 Hb Hs1 Hs2 Hs3 Hn1.
  pose proof (not_space_dot _ Hs1) as Hdot1.
  pose proof (not_space_dot _ Hs2) as Hdot2.
  pose proof (not_space_dot _ Hs3) as Hdot3.
  rewrite !(parse_outline_arg_layout digits px blanks _ h3); try done.
  - unfold parse_hex_color. simpl. by rewrite Hn1.
  - simpl. by rewrite Hdot1, Hdot2, Hdot3.
  - by intros c t [= <- <-].
  - simpl. by rewrite Hdot1, Hdot2, Hdot3.
  - by intros c t [= <- <-].
Qed.

Lemma parse_short_hex_doubles_witness :
  parse_outline_arg "3 #abc" = parse_outline_arg "3 #aabbcc".
Proof.
  apply (parse_short_hex_doubles ["3"]%char [] [" "]%char "a" "b" "c");
    first [done | by left].
Defined.

Lemma drop_while_none (p : ascii -> bool) t :
  take_while p t = [] -> drop_while p t = t.
Proof. destruct t as [|c t]; simpl; [done|]. by destruct (p c). Qed.

Lemma match_number_app (ds t : list ascii) :
  ds <> [] -> forallb isdecimal ds = true -> take_while isdecimal t = [] ->
  match_number (ds ++ t) = Some (ds, t).
Proof.
  intros Hd0 Hd Ht. unfold match_number.
  rewrite take_while_app, Ht, app_nil_r by done.
  rewrite drop_while_app, drop_while_none by done.
  by destruct ds.
Qed.

Lemma match_comma_number_app (sp ds t : list ascii) :
  forallb isspace sp = true ->
  ds <> [] -> forallb isdecimal ds = true -> take_while isdecimal t = [] ->
  match_comma_number (","%char :: sp ++ ds ++ t) = Some (ds, t).
Proof.
  intros Hsp Hd0 Hd Ht. simpl. rewrite drop_while_app by done.
  assert (drop_while isspace (ds ++ t) = ds ++ t) as ->.
  { destruct ds as [|d0 ds']; [done|]. simpl in *.
    apply andb_true_iff in Hd as [Hd _].
    by rewrite (proj1 (decimal_char _ Hd)). }
  by apply match_number_app.
Qed.

Lemma forallb_decimal_dot (l : list ascii) :
  forallb isdecimal l = true -> forallb isdot l = true.
Proof.
  rewrite !forallb_forall. intros Hl c Hc.
  specialize (Hl c Hc). by apply decimal_char in Hl as (_ & ? & _).
Qed.

(** X16: the functional form: [rgb(] or [rgba(], three numbers in decimal
    digits separated by commas and optional blanks, an optional fourth
    number, and [)] parse to these numbers as they are, above 255 too,
    with alpha 255 when the fourth number is missing, as long as the width
    and the numbers have at most 4300 digits each; the letter [a] does not
    decide whether there is an alpha. *)
Theorem parse_rgb_colour (digits px blanks : list ascii) (a_letter : bool)
    (rd sp1 gd sp2 bd : list ascii) (fourth : option (list ascii * list ascii)) :
  digits <> [] -> forallb isdecimal digits = true ->
  px = [] \/ px = ["p"; "x"]%char ->
  blanks <> [] -> forallb isspace blanks = true ->
  rd <> [] -> forallb isdecimal rd = true ->
  gd <> [] -> forallb isdecimal gd = true ->
  bd <> [] -> forallb isdecimal bd = true ->
  forallb isspace sp1 = true -> forallb isdot sp1 = true ->
  forallb isspace sp2 = true -> forallb isdot sp2 = true ->
  match fourth with
  | Some (sp3, ad) =>
      ad <> [] /\ forallb isdecimal ad = true
      /\ forallb isspace sp3 = true /\ forallb isdot sp3 = true
      /\ Z.of_nat (length ad) <= int_max_str_digits
  | None => True
  end ->
  Forall (fun l : list ascii => Z.of_nat (length l) <= int_max_str_digits)
    [digits; rd; gd; bd] ->
  parse_outline_arg
    (string_of_list_ascii
       (digits ++ px ++ blanks
        ++ ["r"; "g"; "b"]%char ++ (if a_letter then ["a"%char] else [])
        ++ "("%char :: rd ++ ","%char :: sp1 ++ gd ++ ","%char :: sp2 ++ bd
        ++ match fourth with
           | Some (sp3, ad) => ","%char :: sp3 ++ ad ++ [")"%char]
           | None => [")"%char]
           end))
  = Ok (decimal_value digits,
        RGBA (decimal_value rd) (decimal_value gd) (decimal_value bd)
          match fourth with
          | Some (_, ad) => decimal_value ad
          | None => 255
          end).
Proof.
  intros Hd0 Hd Hpx Hb0 Hb Hr0 Hr Hg0 Hg Hb0' Hbd Hs1 Hdot1 Hs2 Hdot2 Hfourth.
  intros Hshort.
  apply Forall_cons in Hshort as [Hld Hshort].
  apply Forall_cons in Hshort as [Hlr Hshort].
  apply Forall_cons in Hshort as [Hlg Hshort].
  apply Forall_cons in Hshort as [Hlb _].
  set (tail := match fourth with
               | Some (sp3, ad) => ","%char :: sp3 ++ ad ++ [")"%char]
               | None => [")"%char]
               end).
  assert (take_while isdecimal tail = []) as Htail
    by (subst tail; by destruct fourth as [[sp3 ad]|]).
  assert (forallb isdot tail = true) as Hdott.
  { subst tail. destruct fourth as [[sp3 ad]|]; [|done].
    destruct Hfourth as (_ & Had & _ & Hdot3 & _). simpl.
    rewrite !forallb_app, Hdot3, (forallb_decimal_dot ad) by done. done. }
  assert (last tail = Some ")"%char) as Hlast.
  { subst tail. destruct fourth as [[sp3 ad]|]; [|done].
    by rewrite last_cons, app_assoc, last_snoc. }
  rewrite (parse_outline_arg_layout digits px blanks _ ")"%char); try done.
  - assert (match_rgb (["r"; "g"; "b"]%char
                       ++ (if a_letter then ["a"%char] else [])
                       ++ "("%char :: rd ++ ","%char :: sp1 ++ gd
                       ++ ","%char :: sp2 ++ bd ++ tail)
            = Some (rd, gd, bd,
                    match fourth with
                    | Some (_, ad) => Some ad
                    | None => None
                    end)) as Hrgb.
    { assert (forall s2,
        match_rgb (["r"; "g"; "b"]%char
                   ++ (if a_letter then ["a"%char] else [])
                   ++ "("%char :: s2)
        = ('(r, s3) ← match_number s2;
           '(g, s4) ← match_comma_number s3;
           '(b, s5) ← match_comma_number s4;
           match s5 with
           | ")"%char :: _ => Some (r, g, b, None)
           | ","%char :: _ =>
               '(a, s6) ← match_comma_number s5;
               match s6 with
               | ")"%char :: _ => Some (r, g, b, Some a)
               | _ => None
               end
           | _ => None
           end)) as -> by (intros s2; by destruct a_letter).
      rewrite (match_number_app rd) by done. cbn [mbind option_bind].
      rewrite (match_comma_number_app sp1 gd) by done. cbn [mbind option_bind].
      rewrite (match_comma_number_app sp2 bd) by done. cbn [mbind option_bind].
      subst tail. destruct fourth as [[sp3 ad]|]; [|done].
      destruct Hfourth as (Ha0 & Had & Hs3 & _).
      rewrite (match_comma_number_app sp3 ad) by done. done. }
    simpl startswith. rewrite Hrgb.
    rewrite !int10_short by done. unfold mbind, result_bind.
    destruct fourth as [[sp3 ad]|]; [|done].
    destruct Hfourth as (_ & _ & _ & _ & Hla). by rewrite int10_short.
  - simpl. destruct a_letter; simpl;
      rewrite !forallb_app; simpl; rewrite !forallb_app; simpl;
      rewrite !forallb_app, Hdot1, Hdot2, Hdott,
        (forallb_decimal_dot rd), (forallb_decimal_dot gd),
        (forallb_decimal_dot bd) by done; done.
  - by intros c t [= <- _].
  - repeat (rewrite last_app || rewrite last_cons). by rewrite Hlast.
Qed.

Lemma parse_rgb_colour_witness :
  parse_outline_arg "2 rgb(300, 4,5,6)" = Ok (2, RGBA 300 4 5 6).
Proof.
  apply (parse_rgb_colour ["2"]%char [] [" "]%char false
           ["3"; "0"; "0"]%char [" "]%char ["4"]%char [] ["5"]%char
           (Some ([], ["6"]%char)));
    first [done | by left | by repeat split
          | repeat constructor; by vm_compute].
Defined.

(** X17: blanks before and after the outline string do not matter. *)
Theorem parse_ignores_blanks (b1 l b2 : list ascii) :
  forallb isspace b1 = true -> forallb isspace b2 = true ->
  parse_outline_arg (string_of_list_ascii (b1 ++ l ++ b2))
  = parse_outline_arg (string_of_list_ascii l).
Proof.
  intros Hb1 Hb2. unfold parse_outline_arg.
  by rewrite !list_ascii_of_string_of_list_ascii, strip_blanks.
Qed.

Lemma parse_ignores_blanks_witness :
  parse_outline_arg "  14px #bdbabd " = parse_outline_arg "14px #bdbabd".
Proof.
  apply (parse_ignores_blanks [" "; " "]%char
           (list_ascii_of_string "14px #bdbabd") [" "]%char); done.
Defined.

Lemma match_outline_digits s group1 group2 :
  match_outline s = Some (group1, group2) ->
  forallb isdecimal group1 = true.
Proof.
  unfold match_outline.
  destruct (take_while isdecimal s) as [|d0 ds] eqn:Ht; [done|].
  destruct (match_blanks_rest _ _); [|done].
  intros [= <- <-]. rewrite <- Ht. apply forallb_take_while.
Qed.

(** X18: the width is a number without a sign: a parsed width is never
    negative, and a string that, blanks stripped, is empty or does not
    start with a decimal digit is rejected for its format. *)
Theorem parse_width (s : string) :
  (forall width color, parse_outline_arg s = Ok (width, color) -> 0 <= width) /\
  ((forall c t, strip (list_ascii_of_string s) = c :: t ->
      isdecimal c = false) ->
   parse_outline_arg s = Raise InvalidOutlineFormat).
Proof.
  unfold parse_outline_arg. split.
  - intros width color Hparse.
    destruct (match_outline _) as [[group1 group2]|] eqn:Hm; [|done].
    apply match_outline_digits, decimal_value_nonneg in Hm.
    apply bind_Ok in Hparse as (width0 & Hwidth & Hparse).
    apply int10_Ok in Hwidth as ->.
    destruct (startswith _ _).
    { by apply bind_Ok in Hparse as (c & _ & [= <- _]). }
    destruct (startswith _ _); [|done].
    destruct (match_rgb _) as [[[[group3 group4] group5] group6]|]; [|done].
    apply bind_Ok in Hparse as (r & _ & Hparse).
    apply bind_Ok in Hparse as (g & _ & Hparse).
    apply bind_Ok in Hparse as (b & _ & Hparse).
    by apply bind_Ok in Hparse as (a & _ & [= <- _]).
  - intros Hhead. unfold match_outline.
    destruct (strip (list_ascii_of_string s)) as [|c t]; [done|].
    simpl. by rewrite (Hhead c t).
Qed.

Lemma parse_width_witness :
  parse_outline_arg "-3px #fff" = Raise InvalidOutlineFormat.
Proof.
  apply (proj2 (parse_width "-3px #fff")).
  intros c t [= <- _]. reflexivity.
Defined.

(** ** The chain and [main] *)

Lemma compose_stages_invariant (P : image -> Prop)
    (stages : list (image -> result image)) (img out : image) :
  Forall (fun stage => forall g g', P g -> stage g = Ok g' -> P g') stages ->
  P img -> compose_stages stages img = Ok out -> P out.
Proof.
  unfold compose_stages. intros Hall Himg.
  assert (forall g, Ok img = Ok g -> P g) as Hacc by (by intros g [= <-]).
  revert Hacc. generalize (Ok img). clear Himg.
  induction Hall as [|stage stages Hstage _ IH]; intros acc Hacc Hout.
  - by apply Hacc.
  - simpl in Hout. apply (IH (acc ≫= stage)); [|done].
    intros g Hg. destruct acc as [g0|e]; [|done].
    by apply (Hstage g0 g); [apply Hacc|].
Qed.

(** Every stage returns a raster of the size of the one it is given. *)
Lemma stages_keep_size `{imaging} (request : EffectRequest) (w h : nat) :
  Forall (fun stage => forall g g' : image,
            xsize g = w /\ ysize g = h /\ wf_raster g -> stage g = Ok g' ->
            xsize g' = w /\ ysize g' = h /\ wf_raster g')
    (requested_stages request).
Proof.
  unfold requested_stages. repeat apply Forall_app_2.
  - destruct (req_padding request) as [p|]; [|done].
    apply Forall_singleton. intros g g' (<- & <- & Hwf).
    destruct (decide (0 < p)) as [Hp|Hp].
    + rewrite add_padding_positive by done. case_decide; [done|].
      intros [= <-]. split; [done|]. split; [done|].
      apply wf_paste_at, wf_raster_new.
    + rewrite add_padding_nonpositive by lia. by intros [= <-].
  - destruct (req_removeTransparency request); [|done].
    apply Forall_singleton. intros g g' (<- & <- & Hwf) [= <-].
    rewrite remove_partial_transparency_map by done.
    split; [done|]. split; [done|]. by apply wf_raster_map.
  - destruct (req_brightness request) as [b|]; [|done].
    apply Forall_singleton. intros g g' (<- & <- & Hwf) [= <-].
    split; [|split; [|by apply wf_adjust_brightness]];
      unfold adjust_brightness; by destruct (_ =? 0).
  - destruct (req_outline request) as [[|c s]|]; [done| |done].
    apply Forall_singleton. intros g g' (<- & <- & Hwf) Hout.
    apply bind_Ok in Hout as ([width_px color] & _ & Hout).
    rewrite add_outline_draw in Hout.
    destruct (c_color color); [|done]. injection Hout as <-.
    split; [done|]. split; [done|]. by apply wf_add_outline.
Qed.

(** X19: no effect changes the size of the image: the file a run saves is
    a well-formed raster of the width and height of the input, padding
    included. *)
Theorem process_image_keeps_size `{imaging} (input_path output_path : string)
    (remove_transparency : bool) (opacity_threshold : Z)
    (outline : option string) (brightness padding : option Z)
    (w w' : world) (img : image) (path : string) :
  Image_open (Path input_path) w = Ok img -> wf_raster img ->
  process_image input_path output_path remove_transparency opacity_threshold
    outline brightness padding w = (Ok path, w') ->
  exists out,
    files w' !! file_of w (Path output_path) = Some out
    /\ xsize out = xsize img /\ ysize out = ysize img /\ wf_raster out.
Proof.
  intros Hin Hwf. unfold process_image. rewrite Hin.
  pose proof (apply_effects_pipeline
                {| req_padding := padding;
                   req_removeTransparency := remove_transparency;
                   req_opacityThreshold := opacity_threshold;
                   req_brightness := brightness;
                   req_outline := outline |} img) as Hspec.
  simpl in Hspec.
  destruct (apply_effects _ _ _ _ _ _) as [[out effects_applied]|e]; [|done].
  destruct Hspec as (Hspec & _). unfold save.
  destruct (decide (_ ∈ _)); [done|].
  intros [= _ <-]. exists out.
  split; [destruct effects_applied; apply lookup_insert_eq|].
  unfold pipeline_spec in Hspec.
  by apply (compose_stages_invariant
              (fun g => xsize g = xsize img /\ ysize g = ysize img
                        /\ wf_raster g)
              _ img out (stages_keep_size _ _ _)) in Hspec.
Qed.

Lemma process_image_keeps_size_witness :
  exists out,
    files (process_image (H := sample_imaging) "icon.png" "out.png" true 128
             (Some "1px #bdbabd"%string) (Some (-100)) (Some 1) icon_folder).2
      !! "out.png"%string = Some out
    /\ xsize out = 4%nat /\ ysize out = 4%nat /\ wf_raster out.
Proof.
  apply (process_image_keeps_size (H := sample_imaging) "icon.png" "out.png"
           true 128 (Some "1px #bdbabd"%string) (Some (-100)) (Some 1)
           icon_folder _ white_square "out.png").
  - reflexivity.
  - solve_wf.
  - vm_compute. reflexivity.
Defined.




(** X21: options that ask for no change.  Without the flag and without an
    outline, a padding of zero or less and a brightness of zero are not
    applied: [main] then hands the input image as it is to [img.save] for
    the output path and prints only where it saved it, or reports that the
    input cannot be opened or the output not be written; when neither
    option is given at all it prints its hint and touches nothing. *)
Theorem main_without_effects `{imaging} (args : arguments) (w : world) :
  arg_remove_partial_transparency args = false ->
  no_outline (arg_outline args) = true ->
  (forall b, arg_brightness args = Some b -> b = 0) ->
  (forall p, arg_padding args = Some p -> p <= 0) ->
  main args w
  = match arg_brightness args, arg_padding args with
    | None, None => (0, [NoEffectsRequested], w)
    | _, _ =>
        match Image_open (Path (arg_input args)) w with
        | Ok img =>
            if decide (file_of w (Path (arg_output args)) ∈ unwritable w)
            then (1, [ErrorNotice CannotSave], w)
            else
              (0, [],
               World (file_of w)
                 (<[file_of w (Path (arg_output args)) := img]> (files w))
                 (unwritable w)
                 (console w ++ [SavedTo (Path (arg_output args))]))
        | Raise e => (1, [ErrorNotice e], w)
        end
    end.
Proof.
  destruct args as [input output rt t outline brightness padding]. simpl.
  intros -> Houtline Hb Hp. unfold main, process_image, apply_effects. simpl.
  rewrite Houtline. simpl.
  assert (forall (img : image) (effects_applied : list effect_label),
            match outline with
            | Some (String c s) =>
                '(width_px, color) ← parse_outline_arg (String c s);
                img ← add_outline img width_px color;
                Ok (img, effects_applied ++ [OutlineApplied width_px])
            | _ => Ok (img, effects_applied)
            end = Ok (img, effects_applied)) as Hout
    by (intros img effects_applied; by destruct outline as [[|c s]|]).
  destruct brightness as [b|]; [rewrite (Hb b eq_refl)|];
    (destruct padding as [p|];
     [specialize (Hp p eq_refl);
      assert ((p >? 0) = false) as ->
        by (rewrite Z.gtb_ltb; apply Z.ltb_ge; lia)|]);
    simpl; try reflexivity;
    destruct (Image_open (Path input) w) as [img|e]; try reflexivity;
    unfold mbind, result_bind; simpl; rewrite Hout; unfold save;
    by destruct (decide (_ ∈ _)).
Qed.

Lemma main_without_effects_witness :
  main (H := sample_imaging) zero_flags icon_folder
  = (0, [],
     World id (<["out.png"%string := white_square]> (files icon_folder))
       (unwritable icon_folder) [SavedTo "out.png"]).
Proof.
  rewrite (main_without_effects (H := sample_imaging) zero_flags icon_folder);
    try done.
  - by intros b [= <-].
  - by intros p [= <-].
Defined.

(** X22: when an effect is asked for, [main] is the composition of the
    requested stages on the opened image: it exits with 0 after writing
    their result to the file of the output path, or, when that cannot be
    written, with 1, the error of [img.save] and nothing changed; when a
    stage fails it exits with 1 and the exception of that stage, which is
    not an input/output error; an input that cannot be opened gives
    status 1 and its own error. *)
Theorem main_runs_pipeline `{imaging} (args : arguments) (w : world) :
  arg_remove_partial_transparency args = true
  \/ no_outline (arg_outline args) = false
  \/ arg_brightness args <> None
  \/ arg_padding args <> None ->
  match Image_open (Path (arg_input args)) w with
  | Raise e => main args w = (1, [ErrorNotice e], w)
  | Ok img =>
      match pipeline_spec (request_of args) img with
      | Ok out =>
          exists effects_applied,
            main args w
            = (if decide (file_of w (Path (arg_output args)) ∈ unwritable w)
               then (1, [ErrorNotice CannotSave], w)
               else
                 (0, [],
                  World (file_of w)
                    (<[file_of w (Path (arg_output args)) := out]> (files w))
                    (unwritable w)
                    (console w
                     ++ report effects_applied (Path (arg_output args)))))
      | Raise e =>
          main args w = (1, [ErrorNotice e], w) /\ kind_of e <> IOError
      end
  end.
Proof.
  intros Hrequested. unfold main.
  assert (negb (arg_remove_partial_transparency args)
          && no_outline (arg_outline args)
          && bool_decide (arg_brightness args = None)
          && bool_decide (arg_padding args = None) = false) as ->.
  { destruct Hrequested as [-> | [-> | [Hb | Hp]]].
    - done.
    - by rewrite andb_false_r.
    - by rewrite (bool_decide_eq_false_2 _ Hb), andb_false_r.
    - by rewrite (bool_decide_eq_false_2 _ Hp), andb_false_r. }
  destruct (Image_open (Path (arg_input args)) w) as [img|e0] eqn:Hin.
  - pose proof (run_outcome (arg_input args) (arg_output args)
                  (request_of args) w img Hin) as Hrun.
    unfold run in Hrun. simpl in Hrun.
    destruct (pipeline_spec (request_of args) img) as [out|e] eqn:Hspec.
    + destruct Hrun as (effects_applied & -> & _). exists effects_applied.
      by destruct (decide (_ ∈ _)).
    + rewrite Hrun. split; [done|].
      apply pipeline_spec_error in Hspec
        as [(p & _ & Hpad)|[(s & _ & Hparse)|(-> & _)]].
      * by apply add_padding_error in Hpad as (-> & _).
      * apply parse_outline_arg_error in Hparse. by rewrite Hparse.
      * done.
  - unfold process_image. by rewrite Hin.
Qed.

Lemma main_runs_pipeline_witness :
  exists out effects_applied,
    main (H := sample_imaging) all_flags icon_folder
    = (0, [],
       World id (<["out.png"%string := out]> (files icon_folder))
         (unwritable icon_folder) (report effects_applied "out.png")).
Proof.
  pose proof (main_runs_pipeline (H := sample_imaging) all_flags icon_folder
                (or_introl eq_refl)) as Hmain.
  assert (Image_open (Path (arg_input all_flags)) icon_folder
          = Ok white_square) as Hin by reflexivity.
  rewrite Hin in Hmain.
  destruct (pipeline_spec (request_of all_flags) white_square)
    as [out|e] eqn:Hspec.
  - destruct Hmain as (effects_applied & Hmain). by exists out, effects_applied.
  - vm_compute in Hspec. discriminate.
Defined.
